(** * examples/welcome.c: ask the user for their name and say hello

    A shallow embedding of the C program

<<
      void main() {
        char name[100];
        int i = 0;

        puts("What is your name?\n");
        while ((name[i] = getchar()) != -1 && name[i] != '\n') i += 1;
        name[i] = '\0';
        printf("Hello, %s\n", name);
      }
>>

    The program is embedded as a computation in a state-and-fault monad
    over the machine state it touches: the unread part of standard input,
    the trace of reads and writes performed so far, the array [name] and
    the counter [i].  A store or load outside [name], which C leaves
    undefined, is a fault. *)

From Stdlib Require Import ZArith Ascii String Lia.
From stdpp Require Import base list.

Local Open Scope Z_scope.

(** ** Characters *)

(** Whether plain [char] is a signed or an unsigned 8-bit type is the
    implementation's choice; the model keeps both. *)
Inductive char_sign := SignedChar | UnsignedChar.

(** Conversion of an [int] to [char] (8 bits): the value modulo 256, taken
    in [-128, 127] when [char] is signed and in [0, 255] when it is not. *)
Definition to_char (cs : char_sign) (v : Z) : Z :=
  match cs with
  | SignedChar => (v + 128) mod 256 - 128
  | UnsignedChar => v mod 256
  end.

(** The byte that a [char] value is written as. *)
Definition byte_of_char (c : Z) : ascii := ascii_of_N (Z.to_N (c mod 256)).

(** The value [getchar] yields for a byte: an [unsigned char] as [int]. *)
Definition code (a : ascii) : Z := Z.of_N (N_of_ascii a).

Definition EOF : Z := -1.
Definition newline : ascii := "010"%char.
Definition INT_MAX : Z := 2147483647.

(** ** Machine state *)

Inductive event :=
  | In (v : Z)         (* a call of getchar and the int it returned *)
  | Out (a : ascii).   (* a byte written to standard output *)

Record state := State {
  stdin : list ascii;   (* bytes not read yet *)
  trace : list event;   (* reads and writes so far, oldest first *)
  name : list Z;        (* char name[100] *)
  i : Z                 (* int i *)
}.

Definition capacity : nat := 100.

Inductive fault :=
  | OutOfBounds (idx : Z)   (* access to name[idx] outside the array *)
  | IntOverflow             (* signed overflow of i *)
  | MissingArgument.        (* a printf conversion without an argument *)

Inductive result (A : Type) :=
  | Ret (a : A) (s : state)
  | Fault (f : fault) (s : state)
  | OutOfFuel.
Arguments Ret {A} a s.
Arguments Fault {A} f s.
Arguments OutOfFuel {A}.

Definition M (A : Type) : Type := state -> result A.

Definition ret {A} (a : A) : M A := fun s => Ret a s.

Definition bind {A B} (m : M A) (k : A -> M B) : M B :=
  fun s =>
    match m s with
    | Ret a s' => k a s'
    | Fault f s' => Fault f s'
    | OutOfFuel => OutOfFuel
    end.

Definition raise {A} (f : fault) : M A := fun s => Fault f s.

Declare Scope prog_scope.
Delimit Scope prog_scope with prog.
Notation "x <- m ;; k" := (bind m (fun x => k))
  (at level 100, m at next level, right associativity) : prog_scope.
Notation "m ;; k" := (bind m (fun _ => k))
  (at level 100, right associativity) : prog_scope.
Local Open Scope prog_scope.

(** ** The library functions and the accesses to the locals *)

Definition log (e : list event) (s : state) : state :=
  State (stdin s) (trace s ++ e) (name s) (i s).

(** [getchar()]: the next byte of standard input, or [EOF] when there is
    none.  At end of input every further call yields [EOF] again. *)
Definition getchar : M Z := fun s =>
  match stdin s with
  | [] => Ret EOF (log [In EOF] s)
  | a :: rest =>
      Ret (code a) (State rest (trace s ++ [In (code a)]) (name s) (i s))
  end.

Definition write (l : list ascii) : M unit := fun s =>
  Ret tt (log (Out <$> l) s).

(** [puts(str)], as ISO C has it: the string, then a newline. *)
Definition puts (str : list ascii) : M unit := write (str ++ [newline]).

Definition in_bounds (idx : Z) (s : state) : bool :=
  (0 <=? idx) && (idx <? Z.of_nat (length (name s))).

(** [name[idx] = v]: converts [v] to [char], stores it, and has the stored
    value as its own value. *)
Definition assign_name (cs : char_sign) (idx v : Z) : M Z := fun s =>
  if in_bounds idx s
  then Ret (to_char cs v)
           (State (stdin s) (trace s) (<[Z.to_nat idx := to_char cs v]> (name s)) (i s))
  else Fault (OutOfBounds idx) s.

(** [name[idx]] as an rvalue. *)
Definition read_name (idx : Z) : M Z := fun s =>
  if in_bounds idx s
  then match name s !! Z.to_nat idx with
       | Some c => Ret c s
       | None => Fault (OutOfBounds idx) s
       end
  else Fault (OutOfBounds idx) s.

Definition get_i : M Z := fun s => Ret (i s) s.

(** [i += 1] on an [int]. *)
Definition incr_i : M unit := fun s =>
  if i s + 1 <=? INT_MAX
  then Ret tt (State (stdin s) (trace s) (name s) (i s + 1))
  else Fault IntOverflow s.

(** The C string that starts at the head of [mem]: the chars before the
    first NUL; running off the array before a NUL is found is a fault at
    index [idx + length mem]. *)
Fixpoint cstring (idx : Z) (mem : list Z) : fault + list Z :=
  match mem with
  | [] => inl (OutOfBounds idx)
  | c :: mem' =>
      if c =? 0 then inr []
      else match cstring (idx + 1) mem' with
           | inr l => inr (c :: l)
           | inl f => inl f
           end
  end.

(** [printf(fmt, args)] for the conversion the program uses: [%s] prints
    the C string its argument points to, any other byte of the format is
    printed as it is.  The arguments are pointers into [name], given by
    their index. *)
Fixpoint printf (fmt : list ascii) (args : list Z) : M unit :=
  match fmt with
  | [] => ret tt
  | "%"%char :: "s"%char :: fmt' =>
      match args with
      | [] => raise MissingArgument
      | p :: args' =>
          fun s =>
            if in_bounds p s
            then match cstring p (drop (Z.to_nat p) (name s)) with
                 | inr l => (write (byte_of_char <$> l) ;; printf fmt' args') s
                 | inl f => Fault f s
                 end
            else Fault (OutOfBounds p) s
      end
  | a :: fmt' => write [a] ;; printf fmt' args
  end.

(** ** The program *)

Definition prompt : list ascii := list_ascii_of_string "What is your name?".
Definition hello : list ascii := list_ascii_of_string "Hello, ".

(** The format ["Hello, %s\n"]. *)
Definition hello_format : list ascii :=
  hello ++ list_ascii_of_string "%s" ++ [newline].

(** [while ((name[i] = getchar()) != -1 && name[i] != '\n') i += 1;] *)
Fixpoint while_loop (cs : char_sign) (fuel : nat) : M unit :=
  match fuel with
  | O => fun _ => OutOfFuel
  | S fuel' =>
      idx <- get_i ;;
      c <- getchar ;;
      v <- assign_name cs idx c ;;
      if v =? -1 then ret tt
      else
        idx' <- get_i ;;
        w <- read_name idx' ;;
        if w =? code newline then ret tt
        else incr_i ;; while_loop cs fuel'
  end.

(** The body of [main], after the declarations. *)
Definition main_body (cs : char_sign) (fuel : nat) : M unit :=
  puts (prompt ++ [newline]) ;;
  while_loop cs fuel ;;
  idx <- get_i ;;
  assign_name cs idx 0 ;;
  printf hello_format [0].

(** The state once [char name[100]; int i = 0;] are declared: [name] is
    not initialised, its 100 cells hold whatever chars the [garbage] found
    there makes; [i] is 0. *)
Definition init (cs : char_sign) (garbage : nat -> Z) (input : list ascii)
    : state :=
  State input [] ((fun k => to_char cs (garbage k)) <$> seq 0 capacity) 0.

Definition run (cs : char_sign) (fuel : nat) (garbage : nat -> Z)
    (input : list ascii) : result unit :=
  main_body cs fuel (init cs garbage input).

(** The program.  One more iteration than [name] has cells is all the
    loop can make: with this fuel the run always ends ([main_total]), and
    any fuel that lets it end gives the same result ([run_fuel]). *)
Definition main (cs : char_sign) (garbage : nat -> Z) (input : list ascii)
    : result unit :=
  run cs (S capacity) garbage input.

(** ** Observations *)

Definition outputs (t : list event) : list ascii :=
  flat_map (fun e => match e with Out a => [a] | In _ => [] end) t.

Definition inputs (t : list event) : list Z :=
  flat_map (fun e => match e with In v => [v] | Out _ => [] end) t.

Definition trace_of {A} (r : result A) : list event :=
  match r with
  | Ret _ s | Fault _ s => trace s
  | OutOfFuel => []
  end.

Definition stdout_of {A} (r : result A) : list ascii := outputs (trace_of r).

Definition str (s : string) : list ascii := list_ascii_of_string s.

Definition no_garbage : nat -> Z := fun _ => 0.

(** The outputs that precede the first read, and those that follow the
    last one. *)
Fixpoint before_reads (t : list event) : list ascii :=
  match t with
  | Out a :: t' => a :: before_reads t'
  | _ => []
  end.

Definition after_reads (t : list event) : list ascii :=
  fold_left (fun acc e => match e with In _ => [] | Out a => acc ++ [a] end)
            t [].

(** ** What the loop makes of the input *)

(** The value the next [getchar] returns. *)
Definition next_value (l : list ascii) : Z :=
  match l with
  | [] => EOF
  | a :: _ => code a
  end.

(** The loop's test on a value returned by [getchar], once stored in a
    [char]: true when the loop stops. *)
Definition stop_value (cs : char_sign) (v : Z) : bool :=
  (to_char cs v =? -1) || (to_char cs v =? code newline).

Fixpoint take_until {A} (p : A -> bool) (l : list A) : list A :=
  match l with
  | [] => []
  | a :: l' => if p a then [] else a :: take_until p l'
  end.

(** The bytes of the input that the loop reads without stopping. *)
Definition input_line (cs : char_sign) (input : list ascii) : list ascii :=
  take_until (fun a => stop_value cs (code a)) input.

(** The bytes before the first newline: the line as the specification
    has it. *)
Definition first_line (input : list ascii) : list ascii :=
  take_until (fun a => Ascii.eqb a newline) input.

(** The bytes before the first NUL: what [%s] prints of a sequence. *)
Definition upto_nul (l : list ascii) : list ascii :=
  take_until (fun a => code a =? 0) l.

(** The input up to and including its first newline. *)
Fixpoint upto_newline (l : list ascii) : list ascii :=
  match l with
  | [] => []
  | a :: l' => if Ascii.eqb a newline then [a] else a :: upto_newline l'
  end.

(** ** Stages of a run *)

(** The state after [getchar] has been called. *)
Definition after_getchar (s : state) : state :=
  State (tl (stdin s)) (trace s ++ [In (next_value (stdin s))]) (name s) (i s).

(** The state after the value read has been stored in [name[i]]. *)
Definition after_store (cs : char_sign) (s : state) : state :=
  State (tl (stdin s)) (trace s ++ [In (next_value (stdin s))])
        (<[Z.to_nat (i s) := to_char cs (next_value (stdin s))]> (name s))
        (i s).

(** The state after [i += 1]. *)
Definition after_incr (cs : char_sign) (s : state) : state :=
  State (tl (stdin s)) (trace s ++ [In (next_value (stdin s))])
        (<[Z.to_nat (i s) := to_char cs (next_value (stdin s))]> (name s))
        (i s + 1).

(** The state in which the loop is entered: the prompt has been written. *)
Definition at_loop (cs : char_sign) (garbage : nat -> Z) (input : list ascii)
    : state :=
  State input (Out <$> (prompt ++ [newline; newline]))
        ((fun k => to_char cs (garbage k)) <$> seq 0 capacity) 0.

(** The run up to the end of the loop. *)
Definition after_loop (cs : char_sign) (garbage : nat -> Z)
    (input : list ascii) : result unit :=
  while_loop cs (S capacity) (at_loop cs garbage input).

(** The statements that follow the loop:
    [name[i] = '\0'; printf("Hello, %s\n", name);] *)
Definition finish (cs : char_sign) : M unit :=
  idx <- get_i ;;
  assign_name cs idx 0 ;;
  printf hello_format [0].

(** ** Lines, continued *)

(** The part of the input the loop does not store. *)
Definition after_line (cs : char_sign) (input : list ascii) : list ascii :=
  drop (length (input_line cs input)) input.

Definition byte_255 : ascii := "255"%char.
Definition nul : ascii := "000"%char.

(** ** Runs side by side *)

(** Two states the loop cannot tell apart: they differ at most in the
    cells of [name] from [i] on, which are still to be written, and in
    the input that follows the first newline, which is never read. *)
Definition agree (s1 s2 : state) : Prop :=
  trace s1 = trace s2 /\
  i s1 = i s2 /\
  length (name s1) = length (name s2) /\
  take (Z.to_nat (i s1)) (name s1) = take (Z.to_nat (i s2)) (name s2) /\
  upto_newline (stdin s1) = upto_newline (stdin s2).

(** Two results an observer cannot tell apart: the same way of ending,
    after the same reads and writes. *)
Definition same_behaviour {A} (r1 r2 : result A) : Prop :=
  match r1, r2 with
  | Ret _ s1, Ret _ s2 => trace s1 = trace s2
  | Fault f1 s1, Fault f2 s2 => f1 = f2 /\ trace s1 = trace s2
  | OutOfFuel, OutOfFuel => True
  | _, _ => False
  end.

(** ** Inputs of the examples *)

Definition alice : list ascii := str "Alice" ++ [newline].
Definition bob : list ascii := str "Bob".
Definition a_nul_b : list ascii := str "A" ++ [nul] ++ str "B".
Definition a_255_b : list ascii := str "A" ++ [byte_255] ++ str "B" ++ [newline].
Definition long_line : list ascii := replicate capacity "a"%char.

(** ** Further observations *)

(** The state a run ends in, normally or in a fault. *)
Definition final_state {A} (r : result A) : option state :=
  match r with
  | Ret _ s | Fault _ s => Some s
  | OutOfFuel => None
  end.

(** Whether the loop is stopped while [i] is still inside [name]: the
    bytes it reads without stopping are fewer than the cells, and the
    value read next stops it. *)
Definition loop_stops_in_time (cs : char_sign) (input : list ascii) : bool :=
  (length (input_line cs input) <? capacity)%nat
  && stop_value cs (next_value (after_line cs input)).

(** The bytes before the first newline or byte 255. *)
Definition signed_line (input : list ascii) : list ascii :=
  take_until (fun a => Ascii.eqb a newline || Ascii.eqb a byte_255) input.

(** * Properties *)

(** ** Characters *)

Lemma code_range (a : ascii) : 0 <= code a < 256.
Proof.
  unfold code. pose proof (N_ascii_bounded a). lia.
Qed.

Lemma to_char_mod (cs : char_sign) (v : Z) : to_char cs v mod 256 = v mod 256.
Proof.
  destruct cs; unfold to_char.
  - rewrite Zminus_mod_idemp_l. f_equal. lia.
  - apply Z.mod_mod. lia.
Qed.

Lemma byte_of_char_code (cs : char_sign) (a : ascii) :
  byte_of_char (to_char cs (code a)) = a.
Proof.
  unfold byte_of_char. rewrite to_char_mod.
  pose proof (code_range a).
  rewrite Z.mod_small by lia.
  unfold code. rewrite N2Z.id. apply ascii_N_embedding.
Qed.

(** A byte keeps its value in an unsigned [char]; in a signed one the
    upper half of the range turns negative. *)
Lemma to_char_code (cs : char_sign) (a : ascii) :
  to_char cs (code a) =
  match cs with
  | SignedChar => if code a <? 128 then code a else code a - 256
  | UnsignedChar => code a
  end.
Proof.
  pose proof (code_range a) as Hr.
  destruct cs; unfold to_char.
  - destruct (Z.ltb_spec (code a) 128).
    + rewrite Z.mod_small by lia. lia.
    + replace (code a + 128) with (code a - 128 + 1 * 256) by lia.
      rewrite Z_mod_plus_full, Z.mod_small by lia. lia.
  - apply Z.mod_small. lia.
Qed.

Lemma code_inj (a b : ascii) : code a = code b -> a = b.
Proof.
  unfold code. intros H. apply N2Z.inj in H.
  rewrite <- (ascii_N_embedding a), <- (ascii_N_embedding b). now f_equal.
Qed.

Lemma to_char_newline (cs : char_sign) (a : ascii) :
  to_char cs (code a) = code newline <-> a = newline.
Proof.
  rewrite to_char_code. pose proof (code_range a) as Hr.
  change (code newline) with 10.
  split.
  - intros H. apply code_inj. change (code newline) with 10.
    destruct cs; [destruct (Z.ltb_spec (code a) 128)|]; lia.
  - intros ->. now destruct cs.
Qed.

Lemma to_char_nul (cs : char_sign) (a : ascii) :
  (to_char cs (code a) =? 0) = (code a =? 0).
Proof.
  rewrite to_char_code. pose proof (code_range a) as Hr.
  destruct cs; [destruct (Z.ltb_spec (code a) 128)|]; try reflexivity.
  destruct (Z.eqb_spec (code a - 256) 0), (Z.eqb_spec (code a) 0); lia || reflexivity.
Qed.

(** With a signed [char] the loop stops at a newline, at the byte 255 and
    at end of input; with an unsigned one at a newline only. *)
Lemma stop_value_code (cs : char_sign) (a : ascii) :
  stop_value cs (code a) =
  match cs with
  | SignedChar => Ascii.eqb a newline || Ascii.eqb a "255"%char
  | UnsignedChar => Ascii.eqb a newline
  end.
Proof.
  unfold stop_value. rewrite to_char_code. pose proof (code_range a) as Hr.
  change (code newline) with 10.
  destruct (Ascii.eqb_spec a newline) as [->|Hn]; [now destruct cs|].
  assert (code a <> 10) by (intros E; apply Hn, code_inj; exact E).
  destruct cs.
  - destruct (Ascii.eqb_spec a "255"%char) as [->|Hf]; [reflexivity|].
    assert (code a <> 255) by (intros E; apply Hf, code_inj; exact E).
    destruct (Z.ltb_spec (code a) 128);
      repeat match goal with |- context [?x =? ?y] => destruct (Z.eqb_spec x y) end;
      simpl; lia || reflexivity.
  - repeat match goal with |- context [?x =? ?y] => destruct (Z.eqb_spec x y) end;
      simpl; lia || reflexivity.
Qed.

Lemma stop_value_EOF (cs : char_sign) :
  stop_value cs EOF = match cs with SignedChar => true | UnsignedChar => false end.
Proof. now destruct cs. Qed.

(** ** Traces *)

Lemma outputs_app (t1 t2 : list event) :
  outputs (t1 ++ t2) = outputs t1 ++ outputs t2.
Proof. unfold outputs. apply flat_map_app. Qed.

Lemma outputs_Out (l : list ascii) : outputs (Out <$> l) = l.
Proof. induction l as [|a l IH]; simpl; [reflexivity | now f_equal]. Qed.

Lemma outputs_In (l : list Z) : outputs (In <$> l) = [].
Proof. induction l as [|a l IH]; simpl; [reflexivity | exact IH]. Qed.

Lemma inputs_app (t1 t2 : list event) :
  inputs (t1 ++ t2) = inputs t1 ++ inputs t2.
Proof. unfold inputs. apply flat_map_app. Qed.

Lemma inputs_In (l : list Z) : inputs (In <$> l) = l.
Proof. induction l as [|a l IH]; simpl; [reflexivity | now f_equal]. Qed.

Lemma inputs_In_cons (v : Z) (t : list event) :
  inputs (In v :: t) = v :: inputs t.
Proof. reflexivity. Qed.

Lemma inputs_Out (l : list ascii) : inputs (Out <$> l) = [].
Proof. induction l as [|a l IH]; simpl; [reflexivity | exact IH]. Qed.

Lemma before_reads_Out (l : list ascii) (v : Z) (t : list event) :
  before_reads ((Out <$> l) ++ In v :: t) = l.
Proof. induction l as [|a l IH]; simpl; [reflexivity | now f_equal]. Qed.

Lemma fold_after_reads_Out (l acc : list ascii) :
  fold_left (fun acc e => match e with In _ => [] | Out a => acc ++ [a] end)
            (Out <$> l) acc = acc ++ l.
Proof.
  revert acc. induction l as [|a l IH]; intros acc; simpl.
  - now rewrite app_nil_r.
  - rewrite IH, <- app_assoc. reflexivity.
Qed.

Lemma after_reads_Out (t : list event) (v : Z) (l : list ascii) :
  after_reads (t ++ In v :: (Out <$> l)) = l.
Proof.
  unfold after_reads. rewrite fold_left_app. simpl.
  apply (fold_after_reads_Out l []).
Qed.

(** ** One iteration of the loop *)

Lemma getchar_eq (s : state) :
  getchar s = Ret (next_value (stdin s)) (after_getchar s).
Proof. unfold getchar, after_getchar, log. now destruct (stdin s). Qed.

Lemma in_bounds_spec (idx : Z) (s : state) :
  in_bounds idx s = true <-> 0 <= idx < Z.of_nat (length (name s)).
Proof. unfold in_bounds. rewrite andb_true_iff, Z.leb_le, Z.ltb_lt. tauto. Qed.

Lemma while_loop_step (cs : char_sign) (fuel : nat) (s : state) :
  while_loop cs (S fuel) s =
  if in_bounds (i s) s then
    if stop_value cs (next_value (stdin s)) then Ret tt (after_store cs s)
    else if i s + 1 <=? INT_MAX then while_loop cs fuel (after_incr cs s)
    else Fault IntOverflow (after_store cs s)
  else Fault (OutOfBounds (i s)) (after_getchar s).
Proof.
  cbn [while_loop]. unfold bind at 1. unfold get_i at 1.
  unfold bind at 1. rewrite getchar_eq.
  unfold bind at 1. unfold assign_name.
  change (in_bounds (i s) (after_getchar s)) with (in_bounds (i s) s).
  destruct (in_bounds (i s) s) eqn:Hb; [|reflexivity].
  apply in_bounds_spec in Hb.
  cbn [stdin trace name i after_getchar].
  fold (after_store cs s). unfold stop_value.
  destruct (to_char cs (next_value (stdin s)) =? -1) eqn:E1; [reflexivity|].
  cbn [orb]. unfold bind at 1. unfold get_i at 1.
  unfold bind at 1. unfold read_name.
  assert (Hb' : in_bounds (i (after_store cs s)) (after_store cs s) = true).
  { apply in_bounds_spec. cbn [after_store name i]. rewrite length_insert. exact Hb. }
  rewrite Hb'. cbn [after_store name i].
  rewrite list_lookup_insert_eq by lia.
  fold (after_store cs s).
  destruct (to_char cs (next_value (stdin s)) =? code newline) eqn:E2; [reflexivity|].
  unfold bind at 1. unfold incr_i. cbn [after_store i].
  destruct (i s + 1 <=? INT_MAX); reflexivity.
Qed.

(** ** The loop always comes to an end *)

(** Every iteration that does not leave the loop moves [i] one cell
    closer to the end of [name]; the store past the last cell is a fault.
    So the iterations that remain are bounded by the cells that remain. *)
Lemma while_loop_total (cs : char_sign) (fuel : nat) (s : state) :
  (0 < fuel)%nat ->
  0 <= i s ->
  Z.of_nat (length (name s)) - i s < Z.of_nat fuel ->
  while_loop cs fuel s <> OutOfFuel.
Proof.
  revert s. induction fuel as [|fuel IH]; intros s Hpos Hi Hlen; [lia|].
  rewrite while_loop_step.
  destruct (in_bounds (i s) s) eqn:Hb; [|discriminate].
  apply in_bounds_spec in Hb.
  destruct (stop_value cs (next_value (stdin s))); [discriminate|].
  destruct (i s + 1 <=? INT_MAX); [|discriminate].
  apply IH; cbn [after_incr name i]; rewrite ?length_insert; lia.
Qed.

(** A result reached with some fuel is the result with any larger fuel. *)
Lemma while_loop_fuel_mono (cs : char_sign) (fuel fuel' : nat) (s : state) :
  (fuel <= fuel')%nat ->
  while_loop cs fuel s <> OutOfFuel ->
  while_loop cs fuel' s = while_loop cs fuel s.
Proof.
  revert fuel' s. induction fuel as [|fuel IH]; intros fuel' s Hle Hr.
  - now contradiction Hr.
  - destruct fuel' as [|fuel']; [lia|].
    rewrite !while_loop_step in *.
    destruct (in_bounds (i s) s); [|reflexivity].
    destruct (stop_value cs (next_value (stdin s))); [reflexivity|].
    destruct (i s + 1 <=? INT_MAX); [|reflexivity].
    apply IH; [lia | exact Hr].
Qed.

(** ** The loop on a line that fits *)

Lemma insert_at_length {A} (l1 l2 : list A) (x y : A) :
  <[length l1 := x]> (l1 ++ y :: l2) = l1 ++ x :: l2.
Proof.
  replace (length l1) with (length l1 + 0)%nat at 1 by lia.
  now rewrite insert_app_r.
Qed.


(** The loop started with [pre] already in [name] and [line ++ rest] to
    read, where no byte of [line] stops it, the value read next does, and
    [line] and that value fit in the cells [suf] that remain: it stores
    the line and the value that stopped it, and leaves [i] at the latter. *)
Lemma while_loop_line (cs : char_sign) (line rest : list ascii) :
  forall (fuel : nat) (tr : list event) (pre suf : list Z),
  Forall (fun a => stop_value cs (code a) = false) line ->
  stop_value cs (next_value rest) = true ->
  (length line < length suf)%nat ->
  (length line < fuel)%nat ->
  Z.of_nat (length (pre ++ suf)) <= INT_MAX ->
  while_loop cs fuel
    (State (line ++ rest) tr (pre ++ suf) (Z.of_nat (length pre))) =
  Ret tt
    (State (tl rest)
           (tr ++ (In <$> (code <$> line)) ++ [In (next_value rest)])
           (pre ++ ((fun a => to_char cs (code a)) <$> line)
                ++ to_char cs (next_value rest) :: drop (S (length line)) suf)
           (Z.of_nat (length pre + length line))).
Proof.
  induction line as [|a line IH]; intros fuel tr pre suf Hline Hstop Hfit Hfuel Hmax.
  - destruct fuel as [|fuel]; [simpl in Hfuel; lia|].
    destruct suf as [|x suf]; [simpl in Hfit; lia|].
    rewrite while_loop_step. cbn [stdin trace name i app].
    replace (in_bounds _ _) with true
      by (symmetry; apply in_bounds_spec; cbn [name]; rewrite length_app; simpl; lia).
    rewrite Hstop. unfold after_store. cbn [stdin trace name i app fmap list_fmap].
    rewrite Nat2Z.id, insert_at_length. cbn [length]. rewrite Nat.add_0_r.
    reflexivity.
  - destruct fuel as [|fuel]; [simpl in Hfuel; lia|].
    destruct suf as [|x suf]; [simpl in Hfit; lia|].
    apply Forall_cons in Hline as [Ha Hline].
    rewrite while_loop_step. cbn [stdin trace name i app].
    replace (in_bounds _ _) with true
      by (symmetry; apply in_bounds_spec; cbn [name]; rewrite length_app; simpl; lia).
    cbn [next_value]. rewrite Ha.
    replace (_ <=? INT_MAX) with true
      by (symmetry; apply Z.leb_le; rewrite length_app in Hmax; simpl in Hmax; lia).
    unfold after_incr. cbn [stdin trace name i app tl next_value].
    rewrite Nat2Z.id, insert_at_length.
    replace (pre ++ to_char cs (code a) :: suf)
      with ((pre ++ [to_char cs (code a)]) ++ suf) by now rewrite <- app_assoc.
    replace (Z.of_nat (length pre) + 1)
      with (Z.of_nat (length (pre ++ [to_char cs (code a)])))
      by (rewrite length_app; simpl; lia).
    rewrite IH; try assumption.
    + f_equal. f_equal.
      * rewrite <- app_assoc. reflexivity.
      * rewrite <- !app_assoc. reflexivity.
      * rewrite length_app. simpl. lia.
    + simpl in Hfit. lia.
    + simpl in Hfuel. lia.
    + rewrite !length_app in *. simpl in *. lia.
Qed.

(** ** The greeting *)

Lemma printf_hello (s : state) :
  printf hello_format [0] s =
  if in_bounds 0 s then
    match cstring 0 (name s) with
    | inr l => Ret tt (log (Out <$> (hello ++ (byte_of_char <$> l) ++ [newline])) s)
    | inl f => Fault f (log (Out <$> hello) s)
    end
  else Fault (OutOfBounds 0) (log (Out <$> hello) s).
Proof.
  unfold hello_format, hello, newline. cbn [list_ascii_of_string app printf].
  unfold bind, write, ret, log. cbn [stdin trace name i].
  unfold in_bounds. cbn [stdin trace name i].
  change (Z.to_nat 0) with 0%nat. rewrite drop_0.
  destruct (_ && _); [|f_equal; f_equal; rewrite <- !app_assoc; reflexivity].
  destruct (cstring 0 (name s)) as [f|l].
  - f_equal. f_equal. rewrite <- !app_assoc. reflexivity.
  - cbn [stdin trace name i]. f_equal. f_equal.
    rewrite <- !app_assoc. cbn [fmap list_fmap app].
    rewrite fmap_app. reflexivity.
Qed.

(** The C string of an array that holds a NUL at index [n]: the chars
    before the first NUL among the first [n]. *)
Lemma cstring_sentinel (l : list Z) :
  forall (n : nat) (idx : Z),
  (n < length l)%nat ->
  cstring idx (<[n := 0]> l) = inr (take_until (fun c => c =? 0) (take n l)).
Proof.
  induction l as [|c l IH]; intros n idx Hn; [simpl in Hn; lia|].
  destruct n as [|n]; [reflexivity|].
  cbn [insert list_insert cstring take take_until].
  destruct (c =? 0); [reflexivity|].
  rewrite IH by (simpl in Hn; lia). reflexivity.
Qed.

Lemma take_until_In {A} (p : A -> bool) (l : list A) (x : A) :
  x ∈ take_until p l -> x ∈ l /\ p x = false.
Proof.
  induction l as [|a l IH]; simpl; [intros H; inversion H|].
  destruct (p a) eqn:E; [intros H; inversion H|].
  rewrite !elem_of_cons. intros [->|H]; [tauto|].
  destruct (IH H). tauto.
Qed.

Lemma to_char_0 (cs : char_sign) : to_char cs 0 = 0.
Proof. now destruct cs. Qed.

Lemma run_eq (cs : char_sign) (fuel : nat) (garbage : nat -> Z)
    (input : list ascii) :
  run cs fuel garbage input =
  match while_loop cs fuel (at_loop cs garbage input) with
  | Ret _ s => finish cs s
  | Fault f s => Fault f s
  | OutOfFuel => OutOfFuel
  end.
Proof.
  unfold run, main_body, init, puts. unfold bind at 1.
  unfold write at 1, log. cbn [stdin trace name i app].
  rewrite <- app_assoc. cbn [app]. fold (at_loop cs garbage input).
  unfold bind at 1. reflexivity.
Qed.

Lemma main_eq (cs : char_sign) (garbage : nat -> Z) (input : list ascii) :
  main cs garbage input =
  match after_loop cs garbage input with
  | Ret _ s => finish cs s
  | Fault f s => Fault f s
  | OutOfFuel => OutOfFuel
  end.
Proof. apply run_eq. Qed.

(** Once the loop has stopped with [i] inside [name], the rest of the
    program cannot fault: it puts the sentinel at [i] and prints the
    chars before the first NUL. *)
Lemma finish_eq (cs : char_sign) (s : state) :
  in_bounds (i s) s = true ->
  finish cs s =
  Ret tt
    (State (stdin s)
       (trace s ++ (Out <$> (hello
          ++ (byte_of_char <$>
                take_until (fun c => c =? 0) (take (Z.to_nat (i s)) (name s)))
          ++ [newline])))
       (<[Z.to_nat (i s) := 0]> (name s))
       (i s)).
Proof.
  intros Hb. unfold finish, bind, get_i, assign_name. rewrite Hb.
  rewrite printf_hello, to_char_0.
  apply in_bounds_spec in Hb.
  replace (in_bounds 0 _) with true
    by (symmetry; apply in_bounds_spec; cbn [name]; rewrite length_insert; lia).
  cbn [name]. rewrite cstring_sentinel by lia.
  reflexivity.
Qed.

(** ** Lines *)

Lemma take_until_split {A} (p : A -> bool) (l : list A) :
  l = take_until p l ++ drop (length (take_until p l)) l.
Proof.
  induction l as [|a l IH]; simpl; [reflexivity|].
  destruct (p a); simpl; [reflexivity | now f_equal].
Qed.

Lemma take_until_Forall {A} (p : A -> bool) (l : list A) :
  Forall (fun a => p a = false) (take_until p l).
Proof.
  induction l as [|a l IH]; simpl; [constructor|].
  destruct (p a) eqn:E; constructor; assumption.
Qed.

Lemma take_until_length {A} (p : A -> bool) (l : list A) :
  (length (take_until p l) <= length l)%nat.
Proof.
  induction l as [|a l IH]; simpl; [lia|].
  destruct (p a); simpl; lia.
Qed.

(** What follows the bytes taken starts with a byte that satisfies [p]. *)
Lemma take_until_next {A} (p : A -> bool) (l : list A) :
  match drop (length (take_until p l)) l with
  | [] => length (take_until p l) = length l
  | a :: _ => p a = true
  end.
Proof.
  induction l as [|a l IH]; simpl; [reflexivity|].
  destruct (p a) eqn:E; simpl; [exact E|].
  destruct (drop _ l); [now f_equal | exact IH].
Qed.

Lemma take_until_all {A} (p : A -> bool) (l : list A) :
  Forall (fun a => p a = false) l -> take_until p l = l.
Proof.
  induction 1 as [|a l Ha _ IH]; simpl; [reflexivity|].
  rewrite Ha. now f_equal.
Qed.

(** Printing the chars stored for a line gives back its bytes, up to the
    first NUL. *)
Lemma printed_line (cs : char_sign) (line : list ascii) :
  byte_of_char <$>
    take_until (fun c => c =? 0) ((fun a => to_char cs (code a)) <$> line)
  = upto_nul line.
Proof.
  unfold upto_nul. induction line as [|a line IH]; [reflexivity|].
  cbn [fmap list_fmap take_until]. rewrite to_char_nul.
  destruct (code a =? 0); [reflexivity|].
  cbn [fmap list_fmap]. rewrite byte_of_char_code. f_equal. exact IH.
Qed.

Lemma cstring_line (cs : char_sign) (line : list ascii) :
  forall (idx : Z) (tail : list Z),
  cstring idx (((fun a => to_char cs (code a)) <$> line) ++ 0 :: tail) =
  inr ((fun a => to_char cs (code a)) <$> upto_nul line).
Proof.
  unfold upto_nul. induction line as [|a line IH]; intros idx tail; [reflexivity|].
  cbn [fmap list_fmap app cstring take_until]. rewrite to_char_nul.
  destruct (code a =? 0); [reflexivity|].
  rewrite IH. reflexivity.
Qed.

(** ** A run whose line fits in [name] *)

Lemma main_line (cs : char_sign) (garbage : nat -> Z) (input : list ascii) :
  (length (input_line cs input) < capacity)%nat ->
  stop_value cs (next_value (after_line cs input)) = true ->
  exists s,
    main cs garbage input = Ret tt s /\
    trace s = (Out <$> (prompt ++ [newline; newline]))
              ++ (In <$> (code <$> input_line cs input))
              ++ In (next_value (after_line cs input))
              :: (Out <$> (hello ++ upto_nul (input_line cs input) ++ [newline])) /\
    stdin s = tl (after_line cs input) /\
    i s = Z.of_nat (length (input_line cs input)) /\
    cstring 0 (name s) =
      inr ((fun a => to_char cs (code a)) <$> upto_nul (input_line cs input)).
Proof.
  intros Hfit Hstop.
  set (line := input_line cs input) in *.
  set (rest := after_line cs input) in *.
  assert (Hin : input = line ++ rest) by apply take_until_split.
  rewrite main_eq. unfold after_loop, at_loop.
  replace (State input) with (State (line ++ rest)) by now rewrite <- Hin.
  pose proof (while_loop_line cs line rest (S capacity)
    (Out <$> (prompt ++ [newline; newline])) []
    ((fun k => to_char cs (garbage k)) <$> seq 0 capacity)) as Hl.
  cbn [app length] in Hl. change (Z.of_nat 0) with 0 in Hl.
  rewrite Hl; clear Hl.
  - rewrite finish_eq
      by (apply in_bounds_spec; cbn [name i];
          rewrite length_app, length_fmap; simpl; lia).
    cbn [stdin trace name i]. rewrite Nat2Z.id. cbn [Nat.add].
    rewrite take_app_length' by now rewrite length_fmap.
    rewrite printed_line.
    eexists. split; [reflexivity|]. cbn [stdin trace name i].
    repeat split.
    + rewrite <- !app_assoc. reflexivity.
    + replace (length line) with
        (length ((fun a => to_char cs (code a)) <$> line) + 0)%nat at 1
        by (rewrite length_fmap; lia).
      rewrite insert_app_r. cbn [insert list_insert].
      apply cstring_line.
  - apply take_until_Forall.
  - exact Hstop.
  - rewrite length_fmap, length_seq. exact Hfit.
  - unfold capacity in *. lia.
  - rewrite length_fmap, length_seq. unfold capacity, INT_MAX. lia.
Qed.

(** ** What any run of the loop leaves behind *)

Lemma take_succ_insert {A} (l : list A) (n : nat) (x : A) :
  (n < length l)%nat -> take (S n) (<[n := x]> l) = take n l ++ [x].
Proof.
  intros Hn.
  rewrite (take_S_r _ _ x) by now apply list_lookup_insert_eq.
  rewrite take_insert_ge by lia. reflexivity.
Qed.

(** When the loop is left normally: the values read, all but the last of
    which let it continue, sit in [name] from where [i] was; the last one
    sits at [i], inside the array. *)
Lemma while_loop_Ret (cs : char_sign) (fuel : nat) :
  forall s s' : state,
  while_loop cs fuel s = Ret tt s' ->
  0 <= i s ->
  exists (vs : list Z) (v : Z),
    trace s' = trace s ++ (In <$> vs) ++ [In v] /\
    Forall (fun v => stop_value cs v = false) vs /\
    stop_value cs v = true /\
    i s' = i s + Z.of_nat (length vs) /\
    in_bounds (i s') s' = true /\
    length (name s') = length (name s) /\
    take (Z.to_nat (i s')) (name s') =
      take (Z.to_nat (i s)) (name s) ++ (to_char cs <$> vs) /\
    name s' !! Z.to_nat (i s') = Some (to_char cs v).
Proof.
  induction fuel as [|fuel IH]; intros s s' Hrun Hi; [discriminate|].
  rewrite while_loop_step in Hrun.
  destruct (in_bounds (i s) s) eqn:Hb; [|discriminate].
  pose proof Hb as Hb'. apply in_bounds_spec in Hb'.
  destruct (stop_value cs (next_value (stdin s))) eqn:Hstop.
  - injection Hrun as <-. exists [], (next_value (stdin s)).
    unfold after_store. cbn [trace name i fmap list_fmap app length].
    split_and!.
    + reflexivity.
    + constructor.
    + exact Hstop.
    + lia.
    + apply in_bounds_spec. cbn [name]. rewrite length_insert. exact Hb'.
    + apply length_insert.
    + rewrite take_insert_ge by lia. now rewrite app_nil_r.
    + apply list_lookup_insert_eq. lia.
  - destruct (i s + 1 <=? INT_MAX); [|discriminate].
    apply IH in Hrun; [|unfold after_incr; cbn [i]; lia].
    destruct Hrun as (vs & v & Htr & Hvs & Hv & Hi' & Hin & Hlen & Htake & Hlook).
    unfold after_incr in *. cbn [trace name i] in *.
    exists (next_value (stdin s) :: vs), v.
    split_and!.
    + rewrite Htr, <- app_assoc. reflexivity.
    + constructor; assumption.
    + exact Hv.
    + rewrite Hi'. cbn [length]. lia.
    + exact Hin.
    + rewrite Hlen. apply length_insert.
    + rewrite Htake. replace (Z.to_nat (i s + 1)) with (S (Z.to_nat (i s))) by lia.
      rewrite take_succ_insert by lia.
      rewrite <- app_assoc. reflexivity.
    + exact Hlook.
Qed.

(** Whatever way the loop ends, it has read at least once and written
    nothing. *)
Lemma while_loop_trace (cs : char_sign) (fuel : nat) :
  forall s : state,
  while_loop cs fuel s <> OutOfFuel ->
  exists (v : Z) (vs : list Z),
    trace_of (while_loop cs fuel s) = trace s ++ In v :: (In <$> vs).
Proof.
  induction fuel as [|fuel IH]; intros s Hrun; [now contradiction Hrun|].
  rewrite while_loop_step in *.
  destruct (in_bounds (i s) s); [|now exists (next_value (stdin s)), []].
  destruct (stop_value cs (next_value (stdin s)));
    [now exists (next_value (stdin s)), []|].
  destruct (i s + 1 <=? INT_MAX); [|now exists (next_value (stdin s)), []].
  destruct (IH _ Hrun) as (v & vs & Htr).
  exists (next_value (stdin s)), (v :: vs).
  rewrite Htr. unfold after_incr. cbn [trace]. rewrite <- app_assoc. reflexivity.
Qed.


(** ** Two runs side by side *)

Lemma same_behaviour_trace {A} (r1 r2 : result A) :
  same_behaviour r1 r2 -> trace_of r1 = trace_of r2.
Proof.
  destruct r1, r2; cbn; try contradiction; try reflexivity; intuition.
Qed.

Lemma upto_newline_next (l1 l2 : list ascii) :
  upto_newline l1 = upto_newline l2 -> next_value l1 = next_value l2.
Proof.
  destruct l1 as [|a1 l1], l2 as [|a2 l2]; simpl; try reflexivity;
    repeat match goal with |- context [Ascii.eqb ?a ?b] => destruct (Ascii.eqb a b) end;
    intros H; try discriminate H; now injection H as ->.
Qed.

Lemma stop_value_newline (cs : char_sign) : stop_value cs (code newline) = true.
Proof. now destruct cs. Qed.

Lemma upto_newline_tl (cs : char_sign) (l1 l2 : list ascii) :
  upto_newline l1 = upto_newline l2 ->
  stop_value cs (next_value l1) = false ->
  upto_newline (tl l1) = upto_newline (tl l2).
Proof.
  intros H Hstop. pose proof (upto_newline_next _ _ H) as Hn.
  destruct l1 as [|a1 l1], l2 as [|a2 l2]; simpl in *; try reflexivity.
  - destruct (Ascii.eqb a2 newline); discriminate H.
  - destruct (Ascii.eqb a1 newline); discriminate H.
  - apply code_inj in Hn. subst a2.
    destruct (Ascii.eqb_spec a1 newline) as [->|_].
    + rewrite stop_value_newline in Hstop. discriminate.
    + now injection H.
Qed.

Lemma while_loop_agree (cs : char_sign) (fuel : nat) :
  forall s1 s2 : state,
  agree s1 s2 ->
  0 <= i s1 ->
  match while_loop cs fuel s1, while_loop cs fuel s2 with
  | Ret _ s1', Ret _ s2' =>
      trace s1' = trace s2' /\ i s1' = i s2' /\
      take (Z.to_nat (i s1')) (name s1') = take (Z.to_nat (i s2')) (name s2')
  | Fault f1 s1', Fault f2 s2' => f1 = f2 /\ trace s1' = trace s2'
  | OutOfFuel, OutOfFuel => True
  | _, _ => False
  end.
Proof.
  induction fuel as [|fuel IH]; intros s1 s2 (Htr & Hi & Hlen & Htake & Hin) Hpos;
    [exact I|].
  rewrite !while_loop_step.
  assert (Hb : in_bounds (i s1) s1 = in_bounds (i s2) s2)
    by (unfold in_bounds; now rewrite Hi, Hlen).
  rewrite <- Hb, <- Hi, <- (upto_newline_next _ _ Hin).
  destruct (in_bounds (i s1) s1) eqn:Hb1.
  - apply in_bounds_spec in Hb1.
    destruct (stop_value cs (next_value (stdin s1))) eqn:Hstop.
    + unfold after_store. cbn [trace name i].
      rewrite <- Htr, <- Hi, <- (upto_newline_next _ _ Hin).
      split_and!; [reflexivity..|].
      rewrite !take_insert_ge by lia. rewrite Htake, Hi. reflexivity.
    + destruct (i s1 + 1 <=? INT_MAX).
      * apply IH; [|unfold after_incr; cbn [i]; lia].
        unfold agree, after_incr. cbn [stdin trace name i].
        rewrite <- Htr, <- Hi, <- (upto_newline_next _ _ Hin).
        split_and!; try reflexivity.
        -- now rewrite !length_insert.
        -- replace (Z.to_nat (i s1 + 1)) with (S (Z.to_nat (i s1))) by lia.
           rewrite !take_succ_insert by lia.
           rewrite Htake, Hi. reflexivity.
        -- now apply (upto_newline_tl cs).
      * unfold after_store. cbn [trace].
        now rewrite <- Htr, <- (upto_newline_next _ _ Hin).
  - unfold after_getchar. cbn [trace].
    now rewrite <- Htr, <- (upto_newline_next _ _ Hin).
Qed.

(** Two runs on inputs that agree up to their first newline behave the
    same, whatever [name] held at first in either. *)
Lemma main_agree (cs : char_sign) (g1 g2 : nat -> Z) (in1 in2 : list ascii) :
  upto_newline in1 = upto_newline in2 ->
  same_behaviour (main cs g1 in1) (main cs g2 in2).
Proof.
  intros Hin. rewrite !main_eq. unfold after_loop.
  assert (Hag : agree (at_loop cs g1 in1) (at_loop cs g2 in2)).
  { unfold agree, at_loop. cbn [stdin trace name i].
    split_and!; try reflexivity. exact Hin. }
  pose proof (while_loop_agree cs (S capacity) _ _ Hag ltac:(cbn; lia)) as Hsim.
  pose proof (while_loop_Ret cs (S capacity) (at_loop cs g1 in1)) as Hr1.
  pose proof (while_loop_Ret cs (S capacity) (at_loop cs g2 in2)) as Hr2.
  destruct (while_loop cs (S capacity) (at_loop cs g1 in1)) as [[] s1|f1 s1|],
           (while_loop cs (S capacity) (at_loop cs g2 in2)) as [[] s2|f2 s2|];
    try contradiction; try exact Hsim.
  destruct Hsim as (Htr & Hi & Htake).
  destruct (Hr1 s1 eq_refl ltac:(cbn; lia)) as (_ & _ & _ & _ & _ & _ & Hb1 & _).
  destruct (Hr2 s2 eq_refl ltac:(cbn; lia)) as (_ & _ & _ & _ & _ & _ & Hb2 & _).
  rewrite !finish_eq by assumption.
  cbn [same_behaviour trace]. now rewrite Htr, Htake.
Qed.

(** ** The fuel given to [main] is enough *)

Lemma after_loop_total (cs : char_sign) (garbage : nat -> Z) (input : list ascii) :
  after_loop cs garbage input <> OutOfFuel.
Proof.
  apply while_loop_total; cbn [at_loop name i].
  - unfold capacity. lia.
  - lia.
  - rewrite length_fmap, length_seq. unfold capacity. lia.
Qed.

(** ** The loop of a run *)

Lemma after_loop_Ret (cs : char_sign) (garbage : nat -> Z) (input : list ascii)
    (s : state) :
  after_loop cs garbage input = Ret tt s ->
  exists (vs : list Z) (v : Z),
    trace s = (Out <$> (prompt ++ [newline; newline])) ++ (In <$> vs) ++ [In v] /\
    Forall (fun v => stop_value cs v = false) vs /\
    stop_value cs v = true /\
    i s = Z.of_nat (length vs) /\
    in_bounds (i s) s = true /\
    length (name s) = capacity /\
    take (Z.to_nat (i s)) (name s) = to_char cs <$> vs /\
    name s !! Z.to_nat (i s) = Some (to_char cs v).
Proof.
  intros Hloop. unfold after_loop in Hloop.
  apply while_loop_Ret in Hloop; [|unfold at_loop; cbn [i]; lia].
  destruct Hloop as (vs & v & Htr & Hvs & Hv & Hi & Hb & Hlen & Htake & Hlook).
  unfold at_loop in *. cbn [trace name i] in *.
  rewrite length_fmap, length_seq in Hlen.
  exists vs, v. split_and!; assumption.
Qed.

Lemma after_loop_trace (cs : char_sign) (garbage : nat -> Z)
    (input : list ascii) :
  exists (v : Z) (vs : list Z),
    trace_of (after_loop cs garbage input) =
      (Out <$> (prompt ++ [newline; newline])) ++ In v :: (In <$> vs).
Proof.
  pose proof (after_loop_total cs garbage input) as Ht.
  unfold after_loop in *.
  apply while_loop_trace in Ht. exact Ht.
Qed.

(** A run writes the prompt, then reads, then writes the greeting if it
    gets there. *)
Lemma main_trace (cs : char_sign) (garbage : nat -> Z) (input : list ascii) :
  exists (v : Z) (vs : list Z) (greeting : list ascii),
    trace_of (main cs garbage input) =
      (Out <$> (prompt ++ [newline; newline]))
      ++ (In <$> (v :: vs)) ++ (Out <$> greeting) /\
    (greeting = [] \/ exists body, greeting = hello ++ body ++ [newline]).
Proof.
  rewrite main_eq.
  destruct (after_loop_trace cs garbage input) as (v & vs & Htr).
  pose proof (after_loop_Ret cs garbage input) as Hr.
  pose proof (after_loop_total cs garbage input) as Ht.
  exists v, vs.
  destruct (after_loop cs garbage input) as [[] s|f s|].
  - destruct (Hr s eq_refl) as (_ & _ & _ & _ & _ & _ & Hb & _).
    rewrite finish_eq by exact Hb.
    unfold trace_of in *. cbn [trace]. rewrite Htr.
    exists (hello
      ++ (byte_of_char <$>
            take_until (fun c => c =? 0) (take (Z.to_nat (i s)) (name s)))
      ++ [newline]).
    split; [|right; eexists; reflexivity].
    rewrite <- app_assoc. reflexivity.
  - exists []. unfold trace_of in *. rewrite Htr.
    split; [|now left]. cbn [fmap list_fmap]. now rewrite app_nil_r.
  - now contradiction Ht.
Qed.

(** [main] ends: normally, or in a fault. *)
Lemma main_total (cs : char_sign) (garbage : nat -> Z) (input : list ascii) :
  main cs garbage input <> OutOfFuel.
Proof.
  rewrite main_eq.
  pose proof (after_loop_total cs garbage input) as Ht.
  pose proof (after_loop_Ret cs garbage input) as Hr.
  destruct (after_loop cs garbage input) as [[] s|f s|]; [|discriminate|exact Ht].
  destruct (Hr s eq_refl) as (_ & _ & _ & _ & _ & _ & Hb & _).
  rewrite finish_eq by exact Hb. discriminate.
Qed.

(** Whatever fuel lets the program end makes it end as [main] does. *)
Lemma run_fuel (cs : char_sign) (fuel : nat) (garbage : nat -> Z)
    (input : list ascii) :
  run cs fuel garbage input <> OutOfFuel ->
  run cs fuel garbage input = main cs garbage input.
Proof.
  intros Hrun. unfold main. rewrite !run_eq in *.
  assert (Hw : while_loop cs fuel (at_loop cs garbage input) <> OutOfFuel).
  { intros E. rewrite E in Hrun. now apply Hrun. }
  destruct (Nat.le_gt_cases fuel (S capacity)).
  - now rewrite (while_loop_fuel_mono cs fuel (S capacity)).
  - rewrite (while_loop_fuel_mono cs (S capacity) fuel); [reflexivity|lia|].
    apply after_loop_total.
Qed.

(** ** A run whose line does not fit in [name] *)

(** As long as the loop is not stopped it fills the cells that remain,
    and faults in the store that follows the last of them. *)
Lemma while_loop_overflow (cs : char_sign) (suf : list Z) :
  forall (fuel : nat) (line rest : list ascii) (tr : list event) (pre : list Z),
  Forall (fun a => stop_value cs (code a) = false) line ->
  (length suf <= length line)%nat ->
  (length suf < fuel)%nat ->
  Z.of_nat (length (pre ++ suf)) <= INT_MAX ->
  exists s,
    while_loop cs fuel
      (State (line ++ rest) tr (pre ++ suf) (Z.of_nat (length pre))) =
    Fault (OutOfBounds (Z.of_nat (length (pre ++ suf)))) s /\
    outputs (trace s) = outputs tr /\
    name s = pre ++ ((fun a => to_char cs (code a)) <$> take (length suf) line).
Proof.
  induction suf as [|x suf IH]; intros fuel line rest tr pre Hline Hfit Hfuel Hmax.
  - destruct fuel as [|fuel]; [simpl in Hfuel; lia|].
    rewrite while_loop_step. cbn [stdin trace name i].
    replace (in_bounds _ _) with false.
    2:{ symmetry. apply not_true_iff_false. rewrite in_bounds_spec. cbn [name].
        rewrite app_nil_r. lia. }
    eexists. split; [rewrite app_nil_r; reflexivity|].
    unfold after_getchar. cbn [stdin trace name i length].
    split; [|now rewrite take_0, ?app_nil_r].
    rewrite outputs_app. cbn. now rewrite app_nil_r.
  - destruct fuel as [|fuel]; [simpl in Hfuel; lia|].
    destruct line as [|a line]; [simpl in Hfit; lia|].
    apply Forall_cons in Hline as [Ha Hline].
    rewrite while_loop_step. cbn [stdin trace name i app].
    replace (in_bounds _ _) with true
      by (symmetry; apply in_bounds_spec; cbn [name]; rewrite length_app; simpl; lia).
    cbn [next_value]. rewrite Ha.
    replace (_ <=? INT_MAX) with true
      by (symmetry; apply Z.leb_le; rewrite length_app in Hmax; simpl in Hmax; lia).
    unfold after_incr. cbn [stdin trace name i app tl next_value].
    rewrite Nat2Z.id, insert_at_length.
    replace (pre ++ to_char cs (code a) :: suf)
      with ((pre ++ [to_char cs (code a)]) ++ suf) by now rewrite <- app_assoc.
    replace (Z.of_nat (length pre) + 1)
      with (Z.of_nat (length (pre ++ [to_char cs (code a)])))
      by (rewrite length_app; simpl; lia).
    destruct (IH fuel line rest (tr ++ [In (code a)]) (pre ++ [to_char cs (code a)]))
      as (s & Hrun & Hout & Hname); try assumption.
    + simpl in Hfit. lia.
    + simpl in Hfuel. lia.
    + rewrite !length_app in *. simpl in *. lia.
    + exists s. rewrite Hrun. split_and!.
      * do 2 f_equal. rewrite !length_app. simpl. lia.
      * rewrite Hout, outputs_app. cbn. now rewrite app_nil_r.
      * rewrite Hname, <- app_assoc. reflexivity.
Qed.

Lemma main_overflow (cs : char_sign) (garbage : nat -> Z) (input : list ascii) :
  (capacity <= length (input_line cs input))%nat ->
  exists s,
    main cs garbage input = Fault (OutOfBounds (Z.of_nat capacity)) s /\
    outputs (trace s) = prompt ++ [newline; newline] /\
    name s = (fun a => to_char cs (code a)) <$> take capacity input.
Proof.
  intros Hlong.
  set (line := input_line cs input) in *.
  set (rest := after_line cs input).
  assert (Hin : input = line ++ rest) by apply take_until_split.
  rewrite main_eq. unfold after_loop, at_loop.
  replace (State input) with (State (line ++ rest)) by now rewrite <- Hin.
  destruct (while_loop_overflow cs
    ((fun k => to_char cs (garbage k)) <$> seq 0 capacity)
    (S capacity) line rest (Out <$> (prompt ++ [newline; newline])) [])
    as (s & Hrun & Hout & Hname).
  - apply take_until_Forall.
  - now rewrite length_fmap, length_seq.
  - rewrite length_fmap, length_seq. lia.
  - cbn [app]. rewrite length_fmap, length_seq. unfold capacity, INT_MAX. lia.
  - cbn [app length] in Hrun. change (Z.of_nat 0) with 0 in Hrun.
    rewrite Hrun. exists s. split_and!.
    + rewrite length_fmap, length_seq. reflexivity.
    + rewrite Hout. apply outputs_Out.
    + rewrite Hname. cbn [app]. rewrite length_fmap, length_seq.
      rewrite Hin, take_app_le by exact Hlong. reflexivity.
Qed.

(** ** An unsigned [char] never sees the end of input *)

(** Stored in an unsigned [char], [EOF] is 255 and differs from -1: short
    of a newline the loop goes on past the end of the input, storing 255
    after 255, until it leaves [name]. *)
Lemma while_loop_unsigned (suf : list Z) :
  forall (fuel : nat) (input : list ascii) (tr : list event) (pre : list Z),
  newline ∉ input ->
  (length suf < fuel)%nat ->
  Z.of_nat (length (pre ++ suf)) <= INT_MAX ->
  exists s,
    while_loop UnsignedChar fuel
      (State input tr (pre ++ suf) (Z.of_nat (length pre))) =
    Fault (OutOfBounds (Z.of_nat (length (pre ++ suf)))) s /\
    outputs (trace s) = outputs tr.
Proof.
  induction suf as [|x suf IH]; intros fuel input tr pre Hnl Hfuel Hmax.
  - destruct fuel as [|fuel]; [simpl in Hfuel; lia|].
    rewrite while_loop_step. cbn [stdin trace name i].
    replace (in_bounds _ _) with false.
    2:{ symmetry. apply not_true_iff_false. rewrite in_bounds_spec. cbn [name].
        rewrite app_nil_r. lia. }
    eexists. split; [rewrite app_nil_r; reflexivity|].
    unfold after_getchar. cbn [trace].
    rewrite outputs_app. cbn. now rewrite app_nil_r.
  - destruct fuel as [|fuel]; [simpl in Hfuel; lia|].
    rewrite while_loop_step. cbn [stdin trace name i].
    replace (in_bounds _ _) with true
      by (symmetry; apply in_bounds_spec; cbn [name]; rewrite length_app; simpl; lia).
    assert (Hgo : stop_value UnsignedChar (next_value input) = false).
    { destruct input as [|a input]; [reflexivity|].
      cbn [next_value]. rewrite stop_value_code.
      destruct (Ascii.eqb_spec a newline) as [->|]; [|reflexivity].
      contradiction Hnl. left. }
    rewrite Hgo.
    replace (_ <=? INT_MAX) with true
      by (symmetry; apply Z.leb_le; rewrite length_app in Hmax; simpl in Hmax; lia).
    unfold after_incr. cbn [stdin trace name i].
    rewrite Nat2Z.id, insert_at_length.
    set (c := to_char UnsignedChar (next_value input)).
    replace (pre ++ c :: suf) with ((pre ++ [c]) ++ suf) by now rewrite <- app_assoc.
    replace (Z.of_nat (length pre) + 1) with (Z.of_nat (length (pre ++ [c])))
      by (rewrite length_app; simpl; lia).
    destruct (IH fuel (tl input) (tr ++ [In (next_value input)]) (pre ++ [c]))
      as (s & Hrun & Hout).
    + destruct input as [|a input]; [exact Hnl|].
      intros Hin. apply Hnl. now right.
    + simpl in Hfuel. lia.
    + rewrite !length_app in *. simpl in *. lia.
    + exists s. rewrite Hrun. split.
      * do 2 f_equal. rewrite !length_app. simpl. lia.
      * rewrite Hout, outputs_app. cbn. now rewrite app_nil_r.
Qed.

Lemma main_unsigned_no_newline (garbage : nat -> Z) (input : list ascii) :
  newline ∉ input ->
  exists s,
    main UnsignedChar garbage input = Fault (OutOfBounds (Z.of_nat capacity)) s /\
    outputs (trace s) = prompt ++ [newline; newline].
Proof.
  intros Hnl. rewrite main_eq. unfold after_loop, at_loop.
  destruct (while_loop_unsigned
    ((fun k => to_char UnsignedChar (garbage k)) <$> seq 0 capacity)
    (S capacity) input (Out <$> (prompt ++ [newline; newline])) [])
    as (s & Hrun & Hout).
  - exact Hnl.
  - rewrite length_fmap, length_seq. lia.
  - cbn [app]. rewrite length_fmap, length_seq. unfold capacity, INT_MAX. lia.
  - cbn [app length] in Hrun. change (Z.of_nat 0) with 0 in Hrun.
    rewrite Hrun. exists s. split.
    + rewrite length_fmap, length_seq. reflexivity.
    + rewrite Hout. apply outputs_Out.
Qed.

(** ** Lines as the specification has them *)

(** With a signed [char], a line without the byte 255 is read whole. *)
Lemma input_line_signed (input : list ascii) :
  byte_255 ∉ first_line input ->
  input_line SignedChar input = first_line input.
Proof.
  unfold input_line, first_line.
  induction input as [|a input IH]; [reflexivity|].
  cbn [take_until]. rewrite stop_value_code.
  destruct (Ascii.eqb_spec a newline) as [->|Hn]; [reflexivity|].
  cbn [orb]. intros H255.
  destruct (Ascii.eqb_spec a "255"%char) as [->|Hf].
  - contradiction H255. left.
  - f_equal. apply IH. intros Hin. apply H255. now right.
Qed.

(** With a signed [char], what stops the loop is always there: a byte
    that does, or the end of the input. *)
Lemma after_line_stops_signed (input : list ascii) :
  stop_value SignedChar (next_value (after_line SignedChar input)) = true.
Proof.
  unfold after_line, input_line.
  pose proof (take_until_next (fun a => stop_value SignedChar (code a)) input) as H.
  destruct (drop _ input); [reflexivity | exact H].
Qed.

Lemma upto_nul_all (l : list ascii) : nul ∉ l -> upto_nul l = l.
Proof.
  intros H. apply take_until_all. apply Forall_forall. intros a Ha.
  destruct (Z.eqb_spec (code a) 0) as [E|]; [|reflexivity].
  contradiction H. replace nul with a; [exact Ha|].
  apply code_inj. exact E.
Qed.

(** * The claims *)

(** C1, as stated, fails: on the input ["A\0B\n"] the loop finishes with
    the line ["A\0B"] accumulated, and the greeting written is
    ["Hello, A\n"], not ["Hello, "] followed by that line and a newline. *)
Lemma greeting_cut_at_nul :
  exists s,
    main SignedChar no_garbage (a_nul_b ++ [newline]) = Ret tt s /\
    first_line (a_nul_b ++ [newline]) = a_nul_b /\
    after_reads (trace s) = hello ++ str "A" ++ [newline] /\
    after_reads (trace s) <> hello ++ first_line (a_nul_b ++ [newline]) ++ [newline].
Proof.
  eexists. split; [vm_compute; reflexivity|].
  split; [reflexivity|]. split; [reflexivity|]. discriminate.
Qed.

(** C1, amended: with a signed [char], for every input whose line (the
    bytes before the first newline or the end of input) is shorter than
    the 100 cells of [name] and holds no byte 255, the loop finishes and
    the program then writes exactly ["Hello, "], the line up to its first
    NUL byte (the whole line when it has none), and a newline. *)
Theorem greeting_of_line (garbage : nat -> Z) (input : list ascii) :
  (length (first_line input) < capacity)%nat ->
  byte_255 ∉ first_line input ->
  exists s,
    main SignedChar garbage input = Ret tt s /\
    after_reads (trace s) = hello ++ upto_nul (first_line input) ++ [newline] /\
    (nul ∉ first_line input ->
     after_reads (trace s) = hello ++ first_line input ++ [newline]).
Proof.
  intros Hfit H255.
  pose proof (input_line_signed input H255) as Hline.
  destruct (main_line SignedChar garbage input) as (s & Hrun & Htr & _).
  - now rewrite Hline.
  - apply after_line_stops_signed.
  - exists s. split; [exact Hrun|].
    rewrite Htr, Hline, app_assoc, after_reads_Out.
    split; [reflexivity|].
    intros Hnul. now rewrite upto_nul_all.
Qed.

Lemma greeting_of_line_alice :
  (length (first_line alice) < capacity)%nat /\
  (byte_255 ∉ first_line alice) /\
  exists s,
    main SignedChar no_garbage alice = Ret tt s /\
    after_reads (trace s) = str "Hello, Alice" ++ [newline].
Proof.
  assert (H1 : (length (first_line alice) < capacity)%nat) by (vm_compute; lia).
  assert (H2 : byte_255 ∉ first_line alice).
  { intros H. apply list_elem_of_In in H. vm_compute in H. intuition discriminate. }
  split; [exact H1|]. split; [exact H2|].
  destruct (greeting_of_line no_garbage alice H1 H2) as (s & Hrun & Hout & _).
  exists s. split; [exact Hrun | rewrite Hout; reflexivity].
Defined.

(** C2: the code breaks the claim.  On a line of 100 bytes followed by a
    newline the loop fills the 100 cells of [name] and then stores the
    newline at index 100, one past the last cell: the run ends in the
    fault of that store, whatever the signedness of [char] and whatever
    [name] held at first. *)
Theorem store_past_capacity (cs : char_sign) (garbage : nat -> Z) :
  exists s,
    main cs garbage (long_line ++ [newline]) =
      Fault (OutOfBounds (Z.of_nat capacity)) s /\
    i s = Z.of_nat capacity /\
    name s = replicate capacity (code "a"%char) /\
    inputs (trace s) = replicate capacity (code "a"%char) ++ [code newline].
Proof.
  destruct cs; eexists; (split; [vm_compute; reflexivity|]);
    split_and!; reflexivity.
Qed.

(** C3: the code breaks the claim.  With a signed [char] the byte 255,
    once stored in [name[i]], compares equal to -1: on the input
    ["AÿB
"] the loop stops at that byte, with ["B
"] unread and
    neither a newline nor the end of input seen.  With an unsigned [char]
    it is the end of input that does not stop the loop: on the input
    ["A"] the loop goes on reading, [EOF] after [EOF], until it leaves
    [name]. *)
Theorem stop_at_byte_255 :
  (exists s,
     main SignedChar no_garbage a_255_b = Ret tt s /\
     inputs (trace s) = [code "A"%char; 255] /\
     stdin s = str "B" ++ [newline] /\
     after_reads (trace s) = hello ++ str "A" ++ [newline]) /\
  (exists s,
     main UnsignedChar no_garbage (str "A") =
       Fault (OutOfBounds (Z.of_nat capacity)) s /\
     inputs (trace s) = code "A"%char :: replicate capacity EOF).
Proof.
  split; eexists; (split; [vm_compute; reflexivity|]);
    split_and?; reflexivity.
Qed.

(** C9: the code breaks the claim.  On 100 bytes without a newline the
    program does not run to completion: having read them all and then
    the end of input, it faults in the store at index 100, before any
    greeting is written. *)
Theorem no_completion_on_long_input (garbage : nat -> Z) :
  exists s,
    main SignedChar garbage long_line =
      Fault (OutOfBounds (Z.of_nat capacity)) s /\
    inputs (trace s) = (code <$> long_line) ++ [EOF] /\
    outputs (trace s) = prompt ++ [newline; newline].
Proof.
  eexists. split; [vm_compute; reflexivity|].
  split; reflexivity.
Qed.

(** C4: whenever the loop has stopped, in a state [s1], the program ends
    normally with the sentinel stored at [name[i]], inside the array, in
    place of the value that stopped the loop, which was a newline if a
    newline was read last; and the NUL-terminated sequence then held in
    [name], the one given to the greeting, holds no newline. *)
Theorem stored_line_excludes_newline (cs : char_sign) (garbage : nat -> Z)
    (input : list ascii) (s1 : state) :
  after_loop cs garbage input = Ret tt s1 ->
  exists (s : state) (l : list Z),
    main cs garbage input = Ret tt s /\
    i s = i s1 /\
    0 <= i s < Z.of_nat capacity /\
    (last (inputs (trace s1)) = Some (code newline) ->
     name s1 !! Z.to_nat (i s1) = Some (code newline)) /\
    name s = <[Z.to_nat (i s1) := 0]> (name s1) /\
    name s !! Z.to_nat (i s) = Some 0 /\
    cstring 0 (name s) = inr l /\
    code newline ∉ l.
Proof.
  intros Hloop.
  destruct (while_loop_Ret cs (S capacity) _ _ Hloop ltac:(cbn; lia))
    as (vs & v & Htr & Hvs & Hv & Hi & Hb & Hlen & Htake & Hlook).
  cbn [at_loop trace name i] in *.
  rewrite length_fmap, length_seq in Hlen.
  pose proof Hb as Hb'. apply in_bounds_spec in Hb'. rewrite Hlen in Hb'.
  rewrite main_eq, Hloop, finish_eq by exact Hb.
  eexists. exists (take_until (fun c => c =? 0) (take (Z.to_nat (i s1)) (name s1))).
  split; [reflexivity|]. cbn [stdin trace name i].
  split_and!.
  - reflexivity.
  - lia.
  - lia.
  - intros Hlast. rewrite Htr, app_assoc, inputs_app in Hlast.
    cbn in Hlast. rewrite last_snoc in Hlast. injection Hlast as ->.
    rewrite Hlook. f_equal. now destruct cs.
  - reflexivity.
  - apply list_lookup_insert_eq. lia.
  - apply cstring_sentinel. lia.
  - intros Hin. apply take_until_In in Hin as [Hin _].
    rewrite Htake in Hin. cbn [take app] in Hin.
    apply list_elem_of_fmap in Hin as (v' & Hv' & Hin).
    rewrite Forall_forall in Hvs. specialize (Hvs v' Hin).
    unfold stop_value in Hvs. rewrite <- Hv', Z.eqb_refl, orb_true_r in Hvs.
    discriminate.
Qed.

Lemma stored_line_excludes_newline_alice :
  exists s1,
    after_loop SignedChar no_garbage alice = Ret tt s1 /\
    exists (s : state) (l : list Z),
      main SignedChar no_garbage alice = Ret tt s /\
      i s = i s1 /\
      0 <= i s < Z.of_nat capacity /\
      (last (inputs (trace s1)) = Some (code newline) ->
       name s1 !! Z.to_nat (i s1) = Some (code newline)) /\
      name s = <[Z.to_nat (i s1) := 0]> (name s1) /\
      name s !! Z.to_nat (i s) = Some 0 /\
      cstring 0 (name s) = inr l /\
      code newline ∉ l.
Proof.
  eexists. split; [vm_compute; reflexivity|].
  apply (stored_line_excludes_newline SignedChar no_garbage alice).
  vm_compute. reflexivity.
Defined.

(** C5, as stated, fails: what the program has written when it first
    reads is the prompt followed by two newlines, not one. *)
Lemma prompt_ends_in_two_newlines :
  before_reads (trace_of (main SignedChar no_garbage alice)) =
    prompt ++ [newline; newline] /\
  before_reads (trace_of (main SignedChar no_garbage alice)) <>
    prompt ++ [newline].
Proof.
  split; [vm_compute; reflexivity|]. vm_compute. discriminate.
Qed.

(** C5, amended: for every input, before any byte is read the program
    writes exactly ["What is your name?"] followed by two newlines, the
    one of the string given to [puts] and the one [puts] adds; it writes
    this once: all that a run does is write the prompt, then read, then
    write the greeting, if the run gets there. *)
Theorem prompt_written_once_before_reading (cs : char_sign)
    (garbage : nat -> Z) (input : list ascii) :
  before_reads (trace_of (main cs garbage input)) =
    prompt ++ [newline; newline] /\
  exists (v : Z) (vs : list Z) (greeting : list ascii),
    trace_of (main cs garbage input) =
      (Out <$> (prompt ++ [newline; newline]))
      ++ (In <$> (v :: vs)) ++ (Out <$> greeting) /\
    (greeting = [] \/ exists body, greeting = hello ++ body ++ [newline]).
Proof.
  destruct (main_trace cs garbage input) as (v & vs & greeting & Htr & Hg).
  split; [|now exists v, vs, greeting].
  rewrite Htr. cbn [fmap list_fmap app]. apply before_reads_Out.
Qed.

(** With a signed [char] the empty input is greeted as it should be: the
    program reads the end of input once, stores no char, and ends
    normally having written the prompt and then exactly ["Hello, "] and a
    newline. *)
Lemma empty_input_greeting (garbage : nat -> Z) :
  exists s,
    main SignedChar garbage [] = Ret tt s /\
    inputs (trace s) = [EOF] /\
    i s = 0 /\
    cstring 0 (name s) = inr [] /\
    after_reads (trace s) = hello ++ [newline] /\
    outputs (trace s) = (prompt ++ [newline; newline]) ++ hello ++ [newline].
Proof.
  destruct (main_line SignedChar garbage [])
    as (s & Hrun & Htr & _ & Hi & Hname).
  - unfold capacity. simpl. lia.
  - reflexivity.
  - exists s. split; [exact Hrun|].
    rewrite Htr, Hi, Hname. split_and!; reflexivity.
Qed.

(** C6: the code breaks the claim.  With an unsigned [char] the end of
    input, stored in [name[i]], is 255 and does not compare equal to -1:
    on the empty input the loop does not stop, it reads the end of input
    101 times, filling [name] with 255, and the run ends in the store at
    index 100 with the prompt written and no greeting. *)
Theorem empty_input_unsigned_char (garbage : nat -> Z) :
  exists s,
    main UnsignedChar garbage [] =
      Fault (OutOfBounds (Z.of_nat capacity)) s /\
    inputs (trace s) = replicate (S capacity) EOF /\
    name s = replicate capacity 255 /\
    outputs (trace s) = prompt ++ [newline; newline] /\
    after_reads (trace s) = [].
Proof.
  eexists. split; [vm_compute; reflexivity|].
  split_and!; reflexivity.
Qed.

(** C7, as stated, fails: on the input ["A\0B"], which ends without a
    newline, the program ends normally, but its greeting ["Hello, A\n"]
    does not hold all the bytes read before the end of input. *)
Lemma greeting_without_newline_cut_at_nul :
  exists s,
    main SignedChar no_garbage a_nul_b = Ret tt s /\
    inputs (trace s) = (code <$> a_nul_b) ++ [EOF] /\
    outputs (trace s) =
      (prompt ++ [newline; newline]) ++ hello ++ str "A" ++ [newline] /\
    after_reads (trace s) <> hello ++ a_nul_b ++ [newline].
Proof.
  eexists. split; [vm_compute; reflexivity|].
  split_and!; [reflexivity..|discriminate].
Qed.

(** C7, amended: with a signed [char], for every input of fewer than 100
    bytes that holds no newline and no byte 255, the program reads all of
    it, then the end of input, and ends normally, having written in
    greeting ["Hello, "], the input up to its first NUL byte (all of it
    when it has none), and a newline. *)
Theorem greeting_without_newline (garbage : nat -> Z) (input : list ascii) :
  (length input < capacity)%nat ->
  newline ∉ input ->
  byte_255 ∉ input ->
  exists s,
    main SignedChar garbage input = Ret tt s /\
    stdin s = [] /\
    inputs (trace s) = (code <$> input) ++ [EOF] /\
    after_reads (trace s) = hello ++ upto_nul input ++ [newline] /\
    (nul ∉ input -> after_reads (trace s) = hello ++ input ++ [newline]).
Proof.
  intros Hfit Hnl H255.
  assert (Hline : input_line SignedChar input = input).
  { apply take_until_all, Forall_forall. intros a Ha.
    rewrite stop_value_code.
    destruct (Ascii.eqb_spec a newline) as [->|_]; [contradiction|].
    destruct (Ascii.eqb_spec a "255"%char) as [->|_]; [contradiction|].
    reflexivity. }
  assert (Hrest : after_line SignedChar input = []).
  { unfold after_line. rewrite Hline. apply drop_all. }
  destruct (main_line SignedChar garbage input)
    as (s & Hrun & Htr & Hin & _).
  - now rewrite Hline.
  - now rewrite Hrest.
  - rewrite Hline, Hrest in *. cbn [next_value tl] in *.
    exists s. rewrite Htr. split_and!.
    + exact Hrun.
    + exact Hin.
    + rewrite !inputs_app, inputs_Out, inputs_In, inputs_In_cons, inputs_Out.
      reflexivity.
    + now rewrite app_assoc, after_reads_Out.
    + intros Hnul. now rewrite app_assoc, after_reads_Out, upto_nul_all.
Qed.

Lemma greeting_without_newline_bob :
  (length bob < capacity)%nat /\
  (newline ∉ bob) /\
  (byte_255 ∉ bob) /\
  exists s,
    main SignedChar no_garbage bob = Ret tt s /\
    after_reads (trace s) = str "Hello, Bob" ++ [newline].
Proof.
  assert (H1 : (length bob < capacity)%nat) by (vm_compute; lia).
  assert (H2 : newline ∉ bob).
  { intros H. apply list_elem_of_In in H. vm_compute in H. intuition discriminate. }
  assert (H3 : byte_255 ∉ bob).
  { intros H. apply list_elem_of_In in H. vm_compute in H. intuition discriminate. }
  split_and!; [exact H1 | exact H2 | exact H3 |].
  destruct (greeting_without_newline no_garbage bob H1 H2 H3)
    as (s & Hrun & _ & _ & Hout & _).
  exists s. split; [exact Hrun | rewrite Hout; reflexivity].
Defined.

(** C8: two runs on the same input behave the same, whatever [name]
    happened to hold when each began: they end the same way after the
    same reads and writes, and so with the same bytes on standard
    output. *)
Theorem output_determined_by_input (cs : char_sign) (g1 g2 : nat -> Z)
    (input : list ascii) :
  same_behaviour (main cs g1 input) (main cs g2 input) /\
  trace_of (main cs g1 input) = trace_of (main cs g2 input) /\
  stdout_of (main cs g1 input) = stdout_of (main cs g2 input).
Proof.
  pose proof (main_agree cs g1 g2 input input eq_refl) as H.
  split; [exact H|]. apply same_behaviour_trace in H.
  unfold stdout_of. now rewrite H.
Qed.

(** C10: two runs on inputs that are the same up to and including their
    first newline, or altogether when they have none, write the same
    bytes to standard output, and read the same values. *)
Theorem output_determined_by_first_line (cs : char_sign) (g1 g2 : nat -> Z)
    (in1 in2 : list ascii) :
  upto_newline in1 = upto_newline in2 ->
  stdout_of (main cs g1 in1) = stdout_of (main cs g2 in2) /\
  trace_of (main cs g1 in1) = trace_of (main cs g2 in2).
Proof.
  intros Hin. apply (main_agree cs g1 g2) in Hin.
  apply same_behaviour_trace in Hin.
  unfold stdout_of. now rewrite Hin.
Qed.

Lemma output_determined_by_first_line_alice :
  upto_newline (alice ++ str "X") = upto_newline (alice ++ str "YZ") /\
  stdout_of (main SignedChar no_garbage (alice ++ str "X")) =
    stdout_of (main SignedChar (fun _ => 7) (alice ++ str "YZ")) /\
  trace_of (main SignedChar no_garbage (alice ++ str "X")) =
    trace_of (main SignedChar (fun _ => 7) (alice ++ str "YZ")).
Proof.
  split; [reflexivity|].
  apply (output_determined_by_first_line SignedChar no_garbage (fun _ => 7)
           (alice ++ str "X") (alice ++ str "YZ")).
  reflexivity.
Defined.

(** * Further properties of [main] *)

(** ** The two ways a run can end *)

Lemma take_until_ext {A} (p q : A -> bool) (l : list A) :
  (forall a, p a = q a) -> take_until p l = take_until q l.
Proof.
  intros Hpq. induction l as [|a l IH]; simpl; [reflexivity|].
  rewrite Hpq, IH. reflexivity.
Qed.

Lemma tl_drop {A} (n : nat) (l : list A) : tl (drop n l) = drop (S n) l.
Proof.
  revert l. induction n as [|n IH]; intros [|a l]; simpl; try reflexivity.
  apply IH.
Qed.

Lemma input_line_unsigned (input : list ascii) :
  input_line UnsignedChar input = first_line input.
Proof. apply take_until_ext. intros a. apply stop_value_code. Qed.

Lemma input_line_signed_line (input : list ascii) :
  input_line SignedChar input = signed_line input.
Proof. apply take_until_ext. intros a. apply stop_value_code. Qed.

(** When nothing stops the loop in a line that would fit, the input has
    been read to its end, [char] is unsigned and the input holds no
    newline. *)
Lemma no_stop_unsigned (cs : char_sign) (input : list ascii) :
  stop_value cs (next_value (after_line cs input)) = false ->
  cs = UnsignedChar /\ newline ∉ input.
Proof.
  intros Hgo. unfold after_line, input_line in *.
  pose proof (take_until_next (fun a => stop_value cs (code a)) input) as Hnext.
  pose proof (take_until_Forall (fun a => stop_value cs (code a)) input) as Hall.
  pose proof (take_until_split (fun a => stop_value cs (code a)) input) as Hsplit.
  destruct (drop _ input) as [|a rest].
  - rewrite app_nil_r in Hsplit. rewrite <- Hsplit in Hall.
    cbn [next_value] in Hgo. rewrite stop_value_EOF in Hgo.
    destruct cs; [discriminate|]. split; [reflexivity|].
    intros Hin. rewrite Forall_forall in Hall. apply Hall in Hin.
    rewrite stop_value_newline in Hin. discriminate.
  - cbn [next_value] in Hgo. rewrite Hnext in Hgo. discriminate.
Qed.

(** X2: a run has two ways to end and the input tells which.  If the loop
    is stopped in time the program ends normally; if not, it ends in the
    store at index 100, having written the prompt and nothing else.  No
    other fault ever happens, and the run never goes on for ever. *)
Theorem main_outcome (cs : char_sign) (garbage : nat -> Z) (input : list ascii) :
  if loop_stops_in_time cs input
  then exists s, main cs garbage input = Ret tt s
  else exists s,
         main cs garbage input = Fault (OutOfBounds (Z.of_nat capacity)) s /\
         outputs (trace s) = prompt ++ [newline; newline].
Proof.
  unfold loop_stops_in_time.
  destruct (Nat.ltb_spec (length (input_line cs input)) capacity) as [Hfit|Hlong].
  - destruct (stop_value cs (next_value (after_line cs input))) eqn:Hstop.
    + destruct (main_line cs garbage input Hfit Hstop) as (s & Hrun & _).
      now exists s.
    + destruct (no_stop_unsigned cs input Hstop) as [-> Hnl].
      apply main_unsigned_no_newline, Hnl.
  - destruct (main_overflow cs garbage input Hlong) as (s & Hrun & Hout & _).
    now exists s.
Qed.

(** X1: whenever the first 100 bytes of the input let the loop continue,
    the run ends in the store at index 100, one past the last cell of
    [name]: by then [name] holds those 100 bytes, and the prompt is all
    that has been written. *)
Theorem long_line_overflows (cs : char_sign) (garbage : nat -> Z)
    (input : list ascii) :
  (capacity <= length (input_line cs input))%nat ->
  exists s,
    main cs garbage input = Fault (OutOfBounds (Z.of_nat capacity)) s /\
    outputs (trace s) = prompt ++ [newline; newline] /\
    name s = (fun a => to_char cs (code a)) <$> take capacity input /\
    byte_of_char <$> name s = take capacity input.
Proof.
  intros Hlong.
  destruct (main_overflow cs garbage input Hlong) as (s & Hrun & Hout & Hname).
  exists s. split_and!; try assumption.
  rewrite Hname, <- list_fmap_compose.
  rewrite <- (list_fmap_id (take capacity input)) at 2.
  apply list_fmap_ext. intros _ a _. apply byte_of_char_code.
Qed.

Lemma long_line_overflows_example :
  (capacity <= length (input_line SignedChar (long_line ++ alice)))%nat /\
  exists s,
    main SignedChar no_garbage (long_line ++ alice) =
      Fault (OutOfBounds (Z.of_nat capacity)) s /\
    outputs (trace s) = prompt ++ [newline; newline] /\
    name s = (fun a => to_char SignedChar (code a))
               <$> take capacity (long_line ++ alice) /\
    byte_of_char <$> name s = take capacity (long_line ++ alice).
Proof.
  assert (H : (capacity <= length (input_line SignedChar (long_line ++ alice)))%nat)
    by (vm_compute; lia).
  split; [exact H|].
  exact (long_line_overflows SignedChar no_garbage (long_line ++ alice) H).
Defined.

(** ** An unsigned [char]: what is read past the end of the input *)

Lemma while_loop_unsigned_reads (suf : list Z) :
  forall (fuel : nat) (input : list ascii) (tr : list event) (pre : list Z),
  newline ∉ input ->
  (length suf < fuel)%nat ->
  Z.of_nat (length (pre ++ suf)) <= INT_MAX ->
  exists (s : state) (k : nat),
    while_loop UnsignedChar fuel
      (State input tr (pre ++ suf) (Z.of_nat (length pre))) =
    Fault (OutOfBounds (Z.of_nat (length (pre ++ suf)))) s /\
    inputs (trace s) =
      inputs tr ++ (code <$> take (S (length suf)) input) ++ replicate k EOF /\
    (length (take (S (length suf)) input) + k = S (length suf))%nat.
Proof.
  induction suf as [|x suf IH]; intros fuel input tr pre Hnl Hfuel Hmax.
  - destruct fuel as [|fuel]; [simpl in Hfuel; lia|].
    rewrite while_loop_step. cbn [stdin trace name i].
    replace (in_bounds _ _) with false.
    2:{ symmetry. apply not_true_iff_false. rewrite in_bounds_spec. cbn [name].
        rewrite app_nil_r. lia. }
    unfold after_getchar. cbn [stdin trace name i length].
    eexists. exists (match input with [] => 1 | _ => 0 end)%nat.
    split; [rewrite app_nil_r; reflexivity|]. cbn [trace].
    rewrite inputs_app. destruct input as [|a input]; split; reflexivity.
  - destruct fuel as [|fuel]; [simpl in Hfuel; lia|].
    rewrite while_loop_step. cbn [stdin trace name i].
    replace (in_bounds _ _) with true
      by (symmetry; apply in_bounds_spec; cbn [name]; rewrite length_app; simpl; lia).
    assert (Hgo : stop_value UnsignedChar (next_value input) = false).
    { destruct input as [|a input]; [reflexivity|].
      cbn [next_value]. rewrite stop_value_code.
      destruct (Ascii.eqb_spec a newline) as [->|]; [|reflexivity].
      contradiction Hnl. left. }
    rewrite Hgo.
    replace (_ <=? INT_MAX) with true
      by (symmetry; apply Z.leb_le; rewrite length_app in Hmax; simpl in Hmax; lia).
    unfold after_incr. cbn [stdin trace name i].
    rewrite Nat2Z.id, insert_at_length.
    set (c := to_char UnsignedChar (next_value input)).
    replace (pre ++ c :: suf) with ((pre ++ [c]) ++ suf) by now rewrite <- app_assoc.
    replace (Z.of_nat (length pre) + 1) with (Z.of_nat (length (pre ++ [c])))
      by (rewrite length_app; simpl; lia).
    destruct (IH fuel (tl input) (tr ++ [In (next_value input)]) (pre ++ [c]))
      as (s & k & Hrun & Hreads & Hk).
    + destruct input as [|a input]; [exact Hnl|].
      intros Hin. apply Hnl. now right.
    + simpl in Hfuel. lia.
    + rewrite !length_app in *. simpl in *. lia.
    + rewrite Hrun. rewrite inputs_app in Hreads. cbn [inputs flat_map app] in Hreads.
      destruct input as [|a input].
      * exists s, (S k). cbn [tl take fmap list_fmap app length] in *.
        split_and!.
        -- do 2 f_equal. rewrite !length_app. simpl. lia.
        -- rewrite Hreads, <- app_assoc. reflexivity.
        -- simpl in Hk. simpl. lia.
      * exists s, k. cbn [tl next_value] in *. split_and!.
        -- do 2 f_equal. rewrite !length_app. simpl. lia.
        -- rewrite Hreads, <- app_assoc. reflexivity.
        -- cbn [length] in *. simpl. simpl in Hk. lia.
Qed.

(** X3: with an unsigned [char] the end of input is never seen.  On an
    input without a newline the run always ends in the store at index
    100, with the prompt alone written; it makes 101 reads, of the input
    first and then of the end of input again and again. *)
Theorem unsigned_char_misses_end_of_input (garbage : nat -> Z)
    (input : list ascii) :
  newline ∉ input ->
  exists (s : state) (k : nat),
    main UnsignedChar garbage input =
      Fault (OutOfBounds (Z.of_nat capacity)) s /\
    outputs (trace s) = prompt ++ [newline; newline] /\
    inputs (trace s) = (code <$> take (S capacity) input) ++ replicate k EOF /\
    length (inputs (trace s)) = S capacity /\
    (length input <= capacity -> k = S capacity - length input)%nat.
Proof.
  intros Hnl.
  destruct (main_unsigned_no_newline garbage input Hnl) as (s0 & Hrun0 & Hout).
  revert Hrun0. rewrite main_eq. unfold after_loop, at_loop.
  destruct (while_loop_unsigned_reads
    ((fun k => to_char UnsignedChar (garbage k)) <$> seq 0 capacity)
    (S capacity) input (Out <$> (prompt ++ [newline; newline])) [])
    as (s & k & Hrun & Hreads & Hk).
  - exact Hnl.
  - rewrite length_fmap, length_seq. lia.
  - cbn [app]. rewrite length_fmap, length_seq. unfold capacity, INT_MAX. lia.
  - cbn [app length] in Hrun. change (Z.of_nat 0) with 0 in Hrun.
    rewrite length_fmap, length_seq in Hreads, Hk.
    rewrite Hrun. intros Heq. injection Heq as Hs. subst s0.
    exists s, k. rewrite inputs_Out in Hreads. cbn [app] in Hreads.
    split_and!.
    + now rewrite length_fmap, length_seq.
    + exact Hout.
    + exact Hreads.
    + rewrite Hreads, length_app, length_fmap, length_replicate. exact Hk.
    + intros Hshort. rewrite take_ge in Hk by lia. lia.
Qed.

Lemma unsigned_char_misses_end_of_input_bob :
  (newline ∉ bob) /\
  exists (s : state) (k : nat),
    main UnsignedChar no_garbage bob =
      Fault (OutOfBounds (Z.of_nat capacity)) s /\
    outputs (trace s) = prompt ++ [newline; newline] /\
    inputs (trace s) = (code <$> take (S capacity) bob) ++ replicate k EOF /\
    length (inputs (trace s)) = S capacity /\
    (length bob <= capacity -> k = S capacity - length bob)%nat.
Proof.
  assert (H : newline ∉ bob).
  { intros H. apply list_elem_of_In in H. vm_compute in H. intuition discriminate. }
  split; [exact H|].
  exact (unsigned_char_misses_end_of_input no_garbage bob H).
Defined.

(** ** Lines that are read whole *)

Lemma inputs_of_run (p g : list ascii) (vs : list Z) (v : Z) :
  inputs ((Out <$> p) ++ (In <$> vs) ++ In v :: (Out <$> g)) = vs ++ [v].
Proof.
  rewrite !inputs_app, inputs_Out, inputs_In, inputs_In_cons, inputs_Out.
  reflexivity.
Qed.

Lemma first_line_next (input : list ascii) :
  newline ∈ input ->
  exists rest, drop (length (first_line input)) input = newline :: rest.
Proof.
  unfold first_line. induction input as [|a input IH]; intros Hin.
  - inversion Hin.
  - cbn [take_until]. destruct (Ascii.eqb_spec a newline) as [->|Hne].
    + now exists input.
    + apply elem_of_cons in Hin as [Heq|Hin]; [congruence|].
      cbn [length drop]. apply IH, Hin.
Qed.

(** X4: with an unsigned [char] only a newline stops the loop.  A line
    of fewer than 100 bytes that a newline ends is read whole, the byte
    255 included, and greeted up to its first NUL; what follows the
    newline is left unread. *)
Theorem unsigned_char_line (garbage : nat -> Z) (input : list ascii) :
  newline ∈ input ->
  (length (first_line input) < capacity)%nat ->
  exists s,
    main UnsignedChar garbage input = Ret tt s /\
    inputs (trace s) = (code <$> first_line input) ++ [code newline] /\
    stdin s = drop (S (length (first_line input))) input /\
    i s = Z.of_nat (length (first_line input)) /\
    after_reads (trace s) = hello ++ upto_nul (first_line input) ++ [newline].
Proof.
  intros Hnl Hfit.
  pose proof (input_line_unsigned input) as Hline.
  destruct (first_line_next input Hnl) as (rest & Hrest).
  assert (Hafter : after_line UnsignedChar input = newline :: rest)
    by (unfold after_line; now rewrite Hline).
  destruct (main_line UnsignedChar garbage input)
    as (s & Hrun & Htr & Hin & Hi & _).
  - now rewrite Hline.
  - now rewrite Hafter.
  - rewrite Hline in *. exists s. split_and!.
    + exact Hrun.
    + rewrite Htr, inputs_of_run, Hafter. reflexivity.
    + rewrite Hin. unfold after_line. rewrite Hline. apply tl_drop.
    + exact Hi.
    + now rewrite Htr, app_assoc, after_reads_Out.
Qed.

Lemma unsigned_char_line_example :
  (newline ∈ a_255_b) /\
  (length (first_line a_255_b) < capacity)%nat /\
  exists s,
    main UnsignedChar no_garbage a_255_b = Ret tt s /\
    after_reads (trace s) =
      hello ++ (str "A" ++ [byte_255] ++ str "B") ++ [newline].
Proof.
  assert (H1 : newline ∈ a_255_b).
  { apply list_elem_of_In. vm_compute. tauto. }
  assert (H2 : (length (first_line a_255_b) < capacity)%nat) by (vm_compute; lia).
  split; [exact H1|]. split; [exact H2|].
  destruct (unsigned_char_line no_garbage a_255_b H1 H2)
    as (s & Hrun & _ & _ & _ & Hout).
  exists s. split; [exact Hrun | rewrite Hout; reflexivity].
Defined.

(** X5: with a signed [char] the loop stops at the first newline or byte
    255 (or at the end of input).  When fewer than 100 bytes come before
    it the program ends normally: [i] counts those bytes, the greeting
    holds them up to their first NUL, and the input after the byte that
    stopped the loop is left unread. *)
Theorem signed_char_line (garbage : nat -> Z) (input : list ascii) :
  (length (signed_line input) < capacity)%nat ->
  exists s,
    main SignedChar garbage input = Ret tt s /\
    inputs (trace s) =
      (code <$> signed_line input)
      ++ [next_value (drop (length (signed_line input)) input)] /\
    stdin s = drop (S (length (signed_line input))) input /\
    i s = Z.of_nat (length (signed_line input)) /\
    after_reads (trace s) = hello ++ upto_nul (signed_line input) ++ [newline].
Proof.
  intros Hfit.
  pose proof (input_line_signed_line input) as Hline.
  destruct (main_line SignedChar garbage input)
    as (s & Hrun & Htr & Hin & Hi & _).
  - now rewrite Hline.
  - apply after_line_stops_signed.
  - unfold after_line in *. rewrite Hline in *. exists s. split_and!.
    + exact Hrun.
    + rewrite Htr, inputs_of_run. reflexivity.
    + rewrite Hin. apply tl_drop.
    + exact Hi.
    + now rewrite Htr, app_assoc, after_reads_Out.
Qed.

Lemma signed_char_line_example :
  (length (signed_line a_255_b) < capacity)%nat /\
  exists s,
    main SignedChar no_garbage a_255_b = Ret tt s /\
    stdin s = str "B" ++ [newline] /\
    after_reads (trace s) = hello ++ str "A" ++ [newline].
Proof.
  assert (H : (length (signed_line a_255_b) < capacity)%nat) by (vm_compute; lia).
  split; [exact H|].
  destruct (signed_char_line no_garbage a_255_b H)
    as (s & Hrun & _ & Hin & _ & Hout).
  exists s. split; [exact Hrun|].
  split; [rewrite Hin | rewrite Hout]; reflexivity.
Defined.

(** X6: an input that begins with a newline gives the greeting with an
    empty name, for either signedness of [char] and whatever follows the
    newline, which is left unread. *)
Theorem empty_line_greeting (cs : char_sign) (garbage : nat -> Z)
    (rest : list ascii) :
  exists s,
    main cs garbage (newline :: rest) = Ret tt s /\
    inputs (trace s) = [code newline] /\
    stdin s = rest /\
    i s = 0 /\
    cstring 0 (name s) = inr [] /\
    outputs (trace s) = (prompt ++ [newline; newline]) ++ hello ++ [newline].
Proof.
  assert (Hline : input_line cs (newline :: rest) = []).
  { unfold input_line. cbn [take_until]. now rewrite stop_value_newline. }
  destruct (main_line cs garbage (newline :: rest))
    as (s & Hrun & Htr & Hin & Hi & Hname).
  - rewrite Hline. unfold capacity. simpl. lia.
  - unfold after_line. rewrite Hline. apply stop_value_newline.
  - unfold after_line in *. rewrite Hline in *.
    cbn [length drop tl next_value fmap list_fmap app] in *.
    exists s. split_and!; try assumption.
    + rewrite Htr. apply (inputs_of_run _ _ []).
    + rewrite Htr, !outputs_app, outputs_Out. cbn [outputs flat_map app].
      change (flat_map _ (Out <$> ?l)) with (outputs (Out <$> l)).
      rewrite outputs_Out. reflexivity.
Qed.

(** ** Bounds on what a run writes and reads *)

(** X7: a run that ends normally has written the 20 bytes of the prompt
    and a greeting of 8 bytes more than the C string left in [name],
    which is no longer than the final [i] and so has at most 99 chars:
    between 28 and 127 bytes in all. *)
Theorem normal_run_output_size (cs : char_sign) (garbage : nat -> Z)
    (input : list ascii) (s : state) :
  main cs garbage input = Ret tt s ->
  exists l : list Z,
    cstring 0 (name s) = inr l /\
    Z.of_nat (length l) <= i s < Z.of_nat capacity /\
    length (outputs (trace s)) = (28 + length l)%nat /\
    (28 <= length (outputs (trace s)) <= 127)%nat.
Proof.
  rewrite main_eq.
  destruct (after_loop_trace cs garbage input) as (v & vs & Htr).
  pose proof (after_loop_Ret cs garbage input) as Hr.
  destruct (after_loop cs garbage input) as [[] s1|f s1|]; try discriminate.
  destruct (Hr s1 eq_refl) as (_ & _ & _ & _ & _ & _ & Hb & Hlen & _).
  rewrite finish_eq by exact Hb. intros Hrun. injection Hrun as <-.
  apply in_bounds_spec in Hb. rewrite Hlen in Hb.
  unfold trace_of in Htr. cbn [trace name i]. rewrite Htr.
  pose proof (take_until_length (fun c => c =? 0)
                (take (Z.to_nat (i s1)) (name s1))) as Hbody.
  rewrite length_take in Hbody.
  pose proof (cstring_sentinel (name s1) (Z.to_nat (i s1)) 0 ltac:(lia)) as Hstr.
  set (l := take_until (fun c => c =? 0) (take (Z.to_nat (i s1)) (name s1))) in *.
  exists l.
  assert (Hout : forall t : list event,
    t = ((Out <$> (prompt ++ [newline; newline])) ++ In v :: (In <$> vs)) ++
        (Out <$> (hello ++ (byte_of_char <$> l) ++ [newline])) ->
    length (outputs t) = (28 + length l)%nat).
  { intros t ->. change (In v :: (In <$> vs)) with (In <$> (v :: vs)).
    rewrite !outputs_app, !outputs_Out, outputs_In.
    rewrite !length_app, length_fmap.
    cbn [length prompt hello list_ascii_of_string]. lia. }
  split; [exact Hstr|]. split; [lia|].
  erewrite Hout by reflexivity. split; [reflexivity|].
  unfold capacity in *. lia.
Qed.

Lemma normal_run_output_size_alice :
  exists s,
    main SignedChar no_garbage alice = Ret tt s /\
    exists l : list Z,
      cstring 0 (name s) = inr l /\
      Z.of_nat (length l) <= i s < Z.of_nat capacity /\
      length (outputs (trace s)) = (28 + length l)%nat /\
      (28 <= length (outputs (trace s)) <= 127)%nat.
Proof.
  eexists. split; [vm_compute; reflexivity|].
  apply (normal_run_output_size SignedChar no_garbage alice).
  vm_compute. reflexivity.
Defined.

(** A fault in the loop is the store one past the last cell of [name],
    made after as many reads as cells remained, and one. *)
Lemma while_loop_Fault (cs : char_sign) (fuel : nat) :
  forall (s s' : state) (f : fault),
  while_loop cs fuel s = Fault f s' ->
  0 <= i s <= Z.of_nat (length (name s)) ->
  Z.of_nat (length (name s)) <= INT_MAX ->
  f = OutOfBounds (Z.of_nat (length (name s))) /\
  i s' = Z.of_nat (length (name s)) /\
  Z.of_nat (length (inputs (trace s'))) =
    Z.of_nat (length (inputs (trace s)))
    + (Z.of_nat (length (name s)) - i s) + 1.
Proof.
  induction fuel as [|fuel IH]; intros s s' f Hrun Hi Hmax; [discriminate|].
  rewrite while_loop_step in Hrun.
  destruct (in_bounds (i s) s) eqn:Hb.
  - apply in_bounds_spec in Hb.
    destruct (stop_value cs (next_value (stdin s))); [discriminate|].
    destruct (Z.leb_spec (i s + 1) INT_MAX); [|lia].
    apply IH in Hrun; unfold after_incr in *; cbn [trace name i] in *;
      rewrite ?length_insert in *; try lia.
    destruct Hrun as (-> & -> & Hreads).
    split_and!; try reflexivity.
    rewrite Hreads, inputs_app, length_app. cbn. lia.
  - apply not_true_iff_false in Hb. rewrite in_bounds_spec in Hb.
    injection Hrun as <- <-. unfold after_getchar. cbn [trace name i].
    assert (i s = Z.of_nat (length (name s))) as -> by lia.
    split_and!; try reflexivity.
    rewrite inputs_app, length_app. cbn. lia.
Qed.

(** X8: a run calls [getchar] at least once.  When it ends normally it
    has called it one more time than the final [i], which lies inside
    [name]: at most 100 times.  When it comes to the store at
    [name[100]] it has called it exactly 101 times by then. *)
Theorem reads_before_the_end (cs : char_sign) (garbage : nat -> Z)
    (input : list ascii) :
  (1 <= length (inputs (trace_of (main cs garbage input))))%nat /\
  match main cs garbage input with
  | Ret _ s =>
      Z.of_nat (length (inputs (trace s))) = i s + 1 /\
      0 <= i s < Z.of_nat capacity
  | Fault f s =>
      f = OutOfBounds (Z.of_nat capacity) /\
      i s = Z.of_nat capacity /\
      length (inputs (trace s)) = S capacity
  | OutOfFuel => False
  end.
Proof.
  rewrite main_eq.
  pose proof (after_loop_Ret cs garbage input) as Hr.
  pose proof (after_loop_total cs garbage input) as Ht.
  pose proof (while_loop_Fault cs (S capacity) (at_loop cs garbage input)) as Hf.
  fold (after_loop cs garbage input) in Hf.
  destruct (after_loop cs garbage input) as [[] s|f s|].
  - destruct (Hr s eq_refl) as (vs & v & Htr & _ & _ & Hi & Hb & Hlen & _).
    rewrite finish_eq by exact Hb.
    apply in_bounds_spec in Hb. rewrite Hlen in Hb.
    unfold trace_of. cbn [trace i]. rewrite Htr.
    rewrite !inputs_app, !inputs_Out, inputs_In, app_nil_r.
    cbn [app inputs flat_map]. rewrite length_app. cbn [length].
    unfold capacity in *. lia.
  - destruct (Hf s f eq_refl) as (Hfault & Hidx & Hreads).
    + unfold at_loop. cbn [name i]. lia.
    + unfold at_loop. cbn [name]. rewrite length_fmap, length_seq.
      unfold capacity, INT_MAX. lia.
    + unfold at_loop in Hfault, Hidx, Hreads. cbn [trace name i] in *.
      rewrite length_fmap, length_seq in Hfault, Hidx.
      rewrite inputs_Out, length_fmap, length_seq in Hreads.
      unfold trace_of. cbn [length] in Hreads.
      split_and!; [|assumption..|]; unfold capacity in *; lia.
  - now contradiction Ht.
Qed.

(** ** What a run consumes of its input *)

Lemma stop_value_not_newline (cs : char_sign) (a : ascii) :
  stop_value cs (code a) = false -> Ascii.eqb a newline = false.
Proof.
  intros Hgo. destruct (Ascii.eqb_spec a newline) as [->|]; [|reflexivity].
  rewrite stop_value_newline in Hgo. discriminate.
Qed.

(** One call of [getchar]: the byte consumed, if there is one, is the
    head of the input; the end of input is read only when none is left. *)
Lemma one_read (l : list ascii) :
  exists (consumed : list ascii) (k : nat),
    l = consumed ++ tl l /\
    consumed `prefix_of` upto_newline l /\
    [next_value l] = (code <$> consumed) ++ replicate k EOF /\
    (k = 0%nat \/ tl l = []).
Proof.
  destruct l as [|a l].
  - exists [], 1%nat. split_and!; try reflexivity. now right.
  - exists [a], 0%nat. split_and!; try reflexivity; [|now left].
    cbn [upto_newline]. destruct (Ascii.eqb a newline).
    + reflexivity.
    + now apply prefix_cons, prefix_nil.
Qed.

Lemma while_loop_consumed (cs : char_sign) (fuel : nat) :
  forall s s' : state,
  final_state (while_loop cs fuel s) = Some s' ->
  exists (consumed : list ascii) (k : nat),
    stdin s = consumed ++ stdin s' /\
    consumed `prefix_of` upto_newline (stdin s) /\
    inputs (trace s') =
      inputs (trace s) ++ (code <$> consumed) ++ replicate k EOF /\
    (k = 0%nat \/ stdin s' = []).
Proof.
  induction fuel as [|fuel IH]; intros s s' Hrun; [discriminate|].
  rewrite while_loop_step in Hrun.
  assert (Hlast : forall s1 : state,
    stdin s1 = tl (stdin s) ->
    trace s1 = trace s ++ [In (next_value (stdin s))] ->
    exists (consumed : list ascii) (k : nat),
      stdin s = consumed ++ stdin s1 /\
      consumed `prefix_of` upto_newline (stdin s) /\
      inputs (trace s1) =
        inputs (trace s) ++ (code <$> consumed) ++ replicate k EOF /\
      (k = 0%nat \/ stdin s1 = [])).
  { intros s1 Hin Htr.
    destruct (one_read (stdin s)) as (consumed & k & H1 & H2 & H3 & H4).
    exists consumed, k. rewrite Hin, Htr, inputs_app.
    split_and!; try assumption.
    f_equal. cbn [inputs flat_map app]. exact H3. }
  destruct (in_bounds (i s) s);
    [|injection Hrun as <-; now apply Hlast].
  destruct (stop_value cs (next_value (stdin s))) eqn:Hgo;
    [injection Hrun as <-; now apply Hlast|].
  destruct (i s + 1 <=? INT_MAX);
    [|injection Hrun as <-; now apply Hlast].
  apply IH in Hrun. destruct Hrun as (consumed & k & Hin & Hpre & Htr & Hk).
  unfold after_incr in *. cbn [stdin trace] in *.
  rewrite inputs_app in Htr. cbn [inputs flat_map app] in Htr.
  destruct (stdin s) as [|a l].
  - cbn [tl next_value] in *.
    destruct consumed as [|b consumed]; [|discriminate].
    exists [], (S k). cbn [app] in *. split_and!.
    + exact Hin.
    + apply prefix_nil.
    + rewrite Htr, <- app_assoc. reflexivity.
    + right. now rewrite <- Hin.
  - cbn [tl next_value] in *.
    exists (a :: consumed), k. split_and!.
    + cbn [app]. now f_equal.
    + cbn [upto_newline]. rewrite (stop_value_not_newline cs a Hgo).
      now apply prefix_cons.
    + rewrite Htr, <- app_assoc. reflexivity.
    + exact Hk.
Qed.

(** X9: however a run ends, what it has taken from standard input is an
    initial part of the input that reaches no further than its first
    newline, and the rest is left unread; the values it has read are the
    bytes taken, in order, followed by the end of input, which it reads
    only once no byte is left. *)
Theorem consumed_within_first_line (cs : char_sign) (garbage : nat -> Z)
    (input : list ascii) :
  exists (s : state) (consumed : list ascii) (k : nat),
    final_state (main cs garbage input) = Some s /\
    input = consumed ++ stdin s /\
    consumed `prefix_of` upto_newline input /\
    inputs (trace s) = (code <$> consumed) ++ replicate k EOF /\
    (k = 0%nat \/ stdin s = []).
Proof.
  rewrite main_eq.
  pose proof (after_loop_Ret cs garbage input) as Hr.
  pose proof (after_loop_total cs garbage input) as Ht.
  pose proof (while_loop_consumed cs (S capacity) (at_loop cs garbage input)) as Hc.
  fold (after_loop cs garbage input) in Hc.
  unfold at_loop in Hc. cbn [stdin trace] in Hc. rewrite inputs_Out in Hc.
  destruct (after_loop cs garbage input) as [[] s|f s|].
  - destruct (Hr s eq_refl) as (_ & _ & _ & _ & _ & _ & Hb & _).
    destruct (Hc s eq_refl) as (consumed & k & Hin & Hpre & Htr & Hk).
    rewrite finish_eq by exact Hb.
    eexists. exists consumed, k. split; [reflexivity|]. cbn [stdin trace].
    split_and!; try assumption.
    rewrite inputs_app, inputs_Out, app_nil_r. exact Htr.
  - destruct (Hc s eq_refl) as (consumed & k & Hin & Hpre & Htr & Hk).
    exists s, consumed, k. split; [reflexivity|]. split_and!; assumption.
  - now contradiction Ht.
Qed.

(** ** The cells a run leaves alone *)

Lemma while_loop_frame (cs : char_sign) (fuel : nat) :
  forall s s' : state,
  final_state (while_loop cs fuel s) = Some s' ->
  0 <= i s ->
  i s <= i s' /\
  length (name s') = length (name s) /\
  drop (S (Z.to_nat (i s'))) (name s') = drop (S (Z.to_nat (i s'))) (name s).
Proof.
  induction fuel as [|fuel IH]; intros s s' Hrun Hi; [discriminate|].
  rewrite while_loop_step in Hrun.
  assert (Hstore : i s <= i (after_store cs s) /\
    length (name (after_store cs s)) = length (name s) /\
    drop (S (Z.to_nat (i (after_store cs s)))) (name (after_store cs s)) =
    drop (S (Z.to_nat (i (after_store cs s)))) (name s)).
  { unfold after_store. cbn [name i]. split_and!; [lia|apply length_insert|].
    apply drop_insert_lt. lia. }
  destruct (in_bounds (i s) s).
  - destruct (stop_value cs (next_value (stdin s)));
      [injection Hrun as <-; exact Hstore|].
    destruct (i s + 1 <=? INT_MAX); [|injection Hrun as <-; exact Hstore].
    apply IH in Hrun; [|unfold after_incr; cbn [i]; lia].
    unfold after_incr in Hrun. cbn [name i] in Hrun.
    destruct Hrun as (Hle & Hlen & Hdrop).
    split_and!.
    + lia.
    + rewrite Hlen. apply length_insert.
    + rewrite Hdrop. apply drop_insert_lt. lia.
  - injection Hrun as <-. unfold after_getchar. cbn [name i].
    split_and!; [lia|reflexivity..].
Qed.

(** X10: a run that ends normally has written the cells of [name] up to
    [i] and no other: the array still has its 100 cells, the sentinel is
    at [i], and every cell after it holds what it held when the program
    began. *)
Theorem cells_after_sentinel_untouched (cs : char_sign) (garbage : nat -> Z)
    (input : list ascii) (s : state) :
  main cs garbage input = Ret tt s ->
  length (name s) = capacity /\
  name s !! Z.to_nat (i s) = Some 0 /\
  forall j : nat,
    (Z.to_nat (i s) < j < capacity)%nat ->
    name s !! j = Some (to_char cs (garbage j)).
Proof.
  rewrite main_eq.
  pose proof (after_loop_Ret cs garbage input) as Hr.
  pose proof (while_loop_frame cs (S capacity) (at_loop cs garbage input)) as Hf.
  fold (after_loop cs garbage input) in Hf.
  destruct (after_loop cs garbage input) as [[] s1|f s1|]; try discriminate.
  destruct (Hr s1 eq_refl) as (_ & _ & _ & _ & _ & _ & Hb & Hlen & _).
  destruct (Hf s1 eq_refl) as (Hle & _ & Hdrop);
    [unfold at_loop; cbn [i]; lia|].
  rewrite finish_eq by exact Hb. intros Hrun. injection Hrun as <-.
  apply in_bounds_spec in Hb. rewrite Hlen in Hb.
  unfold at_loop in *. cbn [name i] in *.
  split_and!.
  - rewrite length_insert. exact Hlen.
  - apply list_lookup_insert_eq. lia.
  - intros j Hj.
    rewrite list_lookup_insert_ne by lia.
    replace j with (S (Z.to_nat (i s1)) + (j - S (Z.to_nat (i s1))))%nat by lia.
    rewrite <- lookup_drop, Hdrop, lookup_drop.
    rewrite list_lookup_fmap, lookup_seq_lt by lia.
    reflexivity.
Qed.

Lemma cells_after_sentinel_untouched_alice :
  exists s,
    main SignedChar (fun k => Z.of_nat k) alice = Ret tt s /\
    length (name s) = capacity /\
    name s !! Z.to_nat (i s) = Some 0 /\
    forall j : nat,
      (Z.to_nat (i s) < j < capacity)%nat ->
      name s !! j = Some (to_char SignedChar (Z.of_nat j)).
Proof.
  eexists. split; [vm_compute; reflexivity|].
  apply (cells_after_sentinel_untouched SignedChar (fun k => Z.of_nat k) alice).
  vm_compute. reflexivity.
Defined.
